(** * dump_processor: the COPY-to-INSERT converter of [extract_inserts_advanced.js]

    A shallow embedding of the class [AdvancedDumpExtractor]: the block
    extractor [processDump], the tokenizer [parseCopyLine], the classifier
    [formatValueAdvanced] and the script assembler [generateInsertScript]
    with its helpers [addTriggerManagement] and [addSequenceAdjustment].

    A JavaScript string is a sequence of UTF-16 code units; it is modelled
    as a list of code units, each a number in [N].  Arrays are lists, a
    [push] appends at the end.  The two pieces of mutable state of the
    class, [this.data.copies] and [this.errors], are passed explicitly. *)

From Stdlib Require Import List NArith Bool Arith Lia Ascii String DecimalString.
Import ListNotations.

Local Open Scope N_scope.

(** ** JavaScript strings *)

Module JS.

Definition char := N.
Definition jsstring := list char.

(** Source text of the program is UTF-8; [lit] turns a literal of this file
    into the code units the JavaScript literal denotes (one- and two-byte
    sequences are all the source uses). *)
Fixpoint utf16 (bs : list N) : jsstring :=
  match bs with
  | [] => []
  | b :: r =>
      if b <? 128 then b :: utf16 r
      else match r with
           | b2 :: r' => ((b - 192) * 64 + (b2 - 128)) :: utf16 r'
           | [] => [b]
           end
  end.

Definition lit (s : string) : jsstring :=
  utf16 (map N_of_ascii (list_ascii_of_string s)).

Definition TAB : char := 9.
Definition LF : char := 10.
Definition CR : char := 13.
Definition NUL : char := 0.
Definition DQUOTE : char := 34.
Definition QUOTE : char := 39.
Definition RPAREN : char := 41.
Definition COMMA : char := 44.
Definition SEMI : char := 59.
Definition BACKSLASH : char := 92.

(** [a === b] on strings. *)
Fixpoint eqs (a b : jsstring) : bool :=
  match a, b with
  | [], [] => true
  | x :: a', y :: b' => (x =? y) && eqs a' b'
  | _, _ => false
  end.

(** [s.startsWith(p)] *)
Fixpoint startsWith (s p : jsstring) : bool :=
  match p, s with
  | [], _ => true
  | y :: p', x :: s' => (x =? y) && startsWith s' p'
  | _ :: _, [] => false
  end.

(** [s.endsWith(p)] *)
Definition endsWith (s p : jsstring) : bool := startsWith (rev s) (rev p).

(** [s.includes(p)] *)
Fixpoint includes (s p : jsstring) : bool :=
  startsWith s p || match s with [] => false | _ :: s' => includes s' p end.

(** [s.split(c)] for a one-character separator: never the empty array. *)
Fixpoint split (c : char) (s : jsstring) : list jsstring :=
  match s with
  | [] => [[]]
  | x :: s' =>
      if x =? c then [] :: split c s'
      else match split c s' with
           | f :: fs => (x :: f) :: fs
           | [] => [[x]]
           end
  end.

(** [a.join(sep)] *)
Fixpoint join (sep : jsstring) (a : list jsstring) : jsstring :=
  match a with
  | [] => []
  | [x] => x
  | x :: a' => x ++ sep ++ join sep a'
  end.

(** White space and line terminators, the characters [trim] removes. *)
Definition isWhiteSpace (c : char) : bool :=
  (c =? 9) || (c =? 10) || (c =? 11) || (c =? 12) || (c =? 13) || (c =? 32)
  || (c =? 160) || (c =? 5760) || ((8192 <=? c) && (c <=? 8202))
  || (c =? 8232) || (c =? 8233) || (c =? 8239) || (c =? 8287)
  || (c =? 12288) || (c =? 65279).

Fixpoint dropWhile (p : char -> bool) (s : jsstring) : jsstring :=
  match s with
  | [] => []
  | c :: s' => if p c then dropWhile p s' else s
  end.

(** [s.trim()] *)
Definition trim (s : jsstring) : jsstring :=
  rev (dropWhile isWhiteSpace (rev (dropWhile isWhiteSpace s))).

(** [!s]: the empty string is the only falsy string. *)
Definition falsy (s : jsstring) : bool :=
  match s with [] => true | _ => false end.

(** [s.toLowerCase()].  The letters A-Z map to a-z, and U+0130 maps to [i]
    followed by U+0307; the other code units are kept.  (Unicode lower-casing
    changes further non-ASCII letters, none of them into an ASCII letter
    other than U+212A into [k]; the program only searches the result for
    [id], so those mappings are left out.) *)
Definition lowerUnit (c : char) : jsstring :=
  if (65 <=? c) && (c <=? 90) then [c + 32]
  else if c =? 304 then [105; 775]
  else if c =? 8490 then [107]
  else [c].

Definition toLowerCase (s : jsstring) : jsstring := flat_map lowerUnit s.

(** [s.replace(/c/g, r)] for a one-character pattern. *)
Definition replaceAll (c : char) (r : jsstring) (s : jsstring) : jsstring :=
  flat_map (fun x => if x =? c then r else [x]) s.

(** [String(n)] for a non-negative integer. *)
Definition ofNat (n : nat) : jsstring :=
  lit (NilEmpty.string_of_uint (Nat.to_uint n)).

End JS.
Import JS.

(** ** Regular expressions

    The patterns of the program are embedded as backtracking matchers in
    continuation-passing style, the way ECMA-262 defines them: a matcher
    takes the rest of the input and a continuation for what follows. *)

Module Regex.
Section Matchers.
Context {R : Type}.

Definition cont := jsstring -> option R.
Definition matcher := jsstring -> cont -> option R.

Definition orElse (a b : option R) : option R :=
  match a with Some r => Some r | None => b end.

(** one character of a class *)
Definition cls (p : char -> bool) : matcher := fun s k =>
  match s with
  | c :: s' => if p c then k s' else None
  | [] => None
  end.

(** [x*] on a class, greedy *)
Fixpoint star (p : char -> bool) (s : jsstring) (k : cont) : option R :=
  match s with
  | c :: s' => if p c then orElse (star p s' k) (k s) else k s
  | [] => k s
  end.

(** [x+] on a class, greedy *)
Definition plus (p : char -> bool) : matcher := fun s k =>
  cls p s (fun s' => star p s' k).

(** [m?], greedy *)
Definition opt (m : matcher) : matcher := fun s k => orElse (m s k) (k s).

Definition seq (m1 m2 : matcher) : matcher := fun s k =>
  m1 s (fun s' => m2 s' k).

Definition empty : matcher := fun s k => k s.

(** [x{n}] on a class *)
Fixpoint rep (n : nat) (p : char -> bool) : matcher :=
  match n with
  | O => empty
  | S n' => seq (cls p) (rep n' p)
  end.

(** a literal piece of text *)
Fixpoint str (l : jsstring) : matcher :=
  match l with
  | [] => empty
  | c :: l' => seq (cls (N.eqb c)) (str l')
  end.

(** what a capture group holds: the input a matcher consumed *)
Definition consumed (s rest : jsstring) : jsstring :=
  firstn (List.length s - List.length rest) s.

(** [$] without the [m] flag: the end of the input *)
Definition atEnd (r : R) : cont := fun s =>
  match s with [] => Some r | _ => None end.

(** no anchor at the end: any rest is accepted *)
Definition anyRest (r : R) : cont := fun _ => Some r.
End Matchers.

Definition isSome {A} (o : option A) : bool :=
  match o with Some _ => true | None => false end.

(** [\d] *)
Definition digit (c : char) : bool := (48 <=? c) && (c <=? 57).
Definition chr (c : char) : char -> bool := N.eqb c.
Definition notChr (c : char) : char -> bool := fun x => negb (x =? c).

(** [/^-?\d+(\.\d+)?$/.test(value)] *)
Definition numericTest (value : jsstring) : bool :=
  isSome (seq (opt (cls (chr 45)))
            (seq (plus digit)
               (opt (seq (cls (chr 46)) (plus digit))))
            value (atEnd tt)).

(** [/^\d{4}-\d{2}-\d{2}/.test(value)] *)
Definition datePrefixTest (value : jsstring) : bool :=
  isSome (seq (rep 4 digit)
            (seq (cls (chr 45))
               (seq (rep 2 digit)
                  (seq (cls (chr 45)) (rep 2 digit))))
            value (anyRest tt)).

(** [line.match(/^COPY ([^"]+"[^"]+") \(([^)]+)\) FROM stdin;?$/)]: the two
    capture groups of a match. *)
Definition copyMatch (line : jsstring) : option (jsstring * jsstring) :=
  str (lit "COPY ") line (fun s1 =>
    seq (plus (notChr DQUOTE))
      (seq (cls (chr DQUOTE))
         (seq (plus (notChr DQUOTE)) (cls (chr DQUOTE))))
      s1 (fun s2 =>
        str (lit " (") s2 (fun s3 =>
          plus (notChr RPAREN) s3 (fun s4 =>
            seq (str (lit ") FROM stdin")) (opt (cls (chr SEMI)))
              s4 (atEnd (consumed s1 s2, consumed s3 s4)))))).

End Regex.
Import Regex.

(** ** The classifier *)

(** [value.replace(/'/g, "''")] *)
Definition escapeQuotes (value : jsstring) : jsstring :=
  replaceAll QUOTE [QUOTE; QUOTE] value.

(** [`'${escaped}'`] *)
Definition quoted (escaped : jsstring) : jsstring :=
  lit "'" ++ escaped ++ lit "'".

Definition formatValueAdvanced (value : jsstring) : jsstring :=
  if eqs value (lit "\N") || eqs value [] then lit "NULL"
  else if numericTest value then value
  else if eqs value (lit "t") || eqs value (lit "f") then quoted value
  else if (startsWith value (lit "{") && endsWith value (lit "}"))
          || (startsWith value (lit "[") && endsWith value (lit "]"))
  then quoted (escapeQuotes value)
  else if datePrefixTest value && includes value (lit ":")
  then quoted (escapeQuotes value)
  else quoted (replaceAll NUL [] (escapeQuotes value)).

(** ** The tokenizer *)

(** The [while] loop of [parseCopyLine], on what is left of the line:
    [values] and [current] are the two variables of the loop ([inQuotes] is
    never set).  An escape consumes two characters. *)
Fixpoint parseLoop (line : jsstring) (values : list jsstring)
    (current : jsstring) : list jsstring * jsstring :=
  match line with
  | [] => (values, current)
  | char :: rest =>
      if char =? TAB then parseLoop rest (values ++ [current]) []
      else if char =? BACKSLASH then
        match rest with
        | nextChar :: rest' =>
            if nextChar =? 78 then parseLoop rest' values (current ++ lit "\N")
            else if nextChar =? 116 then parseLoop rest' values (current ++ [TAB])
            else if nextChar =? 110 then parseLoop rest' values (current ++ [LF])
            else if nextChar =? BACKSLASH
            then parseLoop rest' values (current ++ [BACKSLASH])
            else parseLoop rest values (current ++ [char])
        | [] => parseLoop rest values (current ++ [char])
        end
      else parseLoop rest values (current ++ [char])
  end.

Definition parseCopyLine (line : jsstring) : list jsstring :=
  let '(values, current) := parseLoop line [] [] in
  if falsy current then values else values ++ [current].

(** ** The block extractor *)

(** An element of [this.data.copies]. *)
Record copySection := mkCopy {
  table : jsstring;
  columns : jsstring;
  data : jsstring
}.

(** The object held by [currentCopy] while a block is open. *)
Record openCopy := mkOpen {
  open_table : jsstring;
  open_columns : jsstring;
  open_data : list jsstring
}.

(** The variables the loop of [processDump] updates. *)
Record scanState := mkScan {
  copies : list copySection;
  currentCopy : option openCopy;
  inCopyData : bool
}.

(** [lines[i].replace(/\r$/, '')] *)
Definition stripCR (s : jsstring) : jsstring :=
  match rev s with
  | c :: r => if c =? CR then rev r else s
  | [] => s
  end.

(** One iteration of the [for] loop of [processDump]. *)
Definition scanLine (st : scanState) (raw : jsstring) : scanState :=
  let line := stripCR raw in
  match copyMatch line with
  | Some (t, c) => mkScan (copies st) (Some (mkOpen t c [])) true
  | None =>
      match currentCopy st with
      | Some cur =>
          if eqs line (lit "\.") && inCopyData st then
            mkScan (copies st ++ [mkCopy (open_table cur) (open_columns cur)
                                    (join [LF] (open_data cur))])
                   None false
          else if inCopyData st then
            mkScan (copies st)
                   (Some (mkOpen (open_table cur) (open_columns cur)
                            (open_data cur ++ [line])))
                   (inCopyData st)
          else st
      | None => st
      end
  end.

Definition scanLines (st : scanState) (lines : list jsstring) : scanState :=
  fold_left scanLine lines st.

(** [processDump] on the text of the dump file, for an extractor whose
    [data.copies] holds [copies0] (the constructor sets it to the empty
    array): the value of [this.data.copies] on return. *)
Definition processDumpFrom (copies0 : list copySection) (content : jsstring)
  : list copySection :=
  copies (scanLines (mkScan copies0 None false) (split LF content)).

Definition processDump (content : jsstring) : list copySection :=
  processDumpFrom [] content.

(** ** The script assembler *)

(** How a call ends: with a value, or with a thrown error of some message. *)
Inductive completion (A : Type) : Type :=
| Normal (a : A)
| Throw (message : jsstring).
Arguments Normal {A} a.
Arguments Throw {A} message.

Definition addTriggerManagement (script : list jsstring) (enable : bool)
  : list jsstring :=
  let action := if enable then lit "ENABLE" else lit "DISABLE" in
  script
  ++ [lit "-- " ++ (if enable then lit "Reabilitar" else lit "Desabilitar")
        ++ lit " triggers para evitar problemas com foreign keys";
      lit "DO $$";
      lit "DECLARE";
      lit "r RECORD;";
      lit "BEGIN";
      lit "FOR r IN";
      lit "SELECT conname, conrelid::regclass::text AS table_name";
      lit "FROM pg_constraint";
      lit "WHERE contype = 'f'";
      lit "LOOP";
      lit "EXECUTE format('ALTER TABLE %s " ++ action ++ lit " TRIGGER ALL', r.table_name);";
      lit "END LOOP;";
      lit "END $$;";
      []].

(** [columns.split(',').map(col => col.trim())] *)
Definition columnListOf (columns : jsstring) : list jsstring :=
  map trim (split COMMA columns).

(** The test of the [filter] in [addSequenceAdjustment]. *)
Definition isIdColumn (col : jsstring) : bool :=
  includes (toLowerCase col) (lit "id") || includes (toLowerCase col) (lit "_id").

(** The lines pushed for one column in [addSequenceAdjustment]. *)
Definition sequenceBlock (tableName idCol : jsstring) : list jsstring :=
  let bare := replaceAll DQUOTE [] idCol in
  [ lit "-- Ajustar sequence para " ++ tableName ++ lit "." ++ idCol;
    lit "DO $$";
    lit "DECLARE";
    lit "    seq_name text;";
    lit "    max_val bigint;";
    lit "    col_exists boolean;";
    lit "BEGIN";
    lit "    -- Verificar se a coluna existe na tabela";
    lit "    SELECT EXISTS(";
    lit "        SELECT 1 FROM information_schema.columns";
    lit "        WHERE table_schema = split_part('" ++ tableName ++ lit "', '.', 1)";
    lit "        AND table_name = split_part('" ++ tableName ++ lit "', '.', 2)";
    lit "        AND column_name = '" ++ bare ++ lit "'";
    lit "    ) INTO col_exists;";
    lit "    ";
    lit "    IF col_exists THEN";
    lit "        seq_name := pg_get_serial_sequence('" ++ tableName ++ lit "', '"
      ++ bare ++ lit "');";
    lit "        IF seq_name IS NOT NULL THEN";
    lit "            EXECUTE format('SELECT COALESCE(MAX(%I), 1) FROM " ++ tableName
      ++ lit "', '" ++ bare ++ lit "') INTO max_val;";
    lit "            EXECUTE format('SELECT setval(%L, %s)', seq_name, max_val);";
    lit "        END IF;";
    lit "    END IF;";
    lit "END $$;";
    [] ].

(** The body of the outer loop of [addSequenceAdjustment]. *)
Definition sequenceBlocksOf (copySection : copySection) : list jsstring :=
  let idColumns := filter isIdColumn (columnListOf (columns copySection)) in
  flat_map (sequenceBlock (table copySection)) idColumns.

Definition addSequenceAdjustment (copies : list copySection)
    (script : list jsstring) : list jsstring :=
  fold_left (fun script copySection => script ++ sequenceBlocksOf copySection)
    copies
    (script ++ [lit "-- Ajustar sequences das chaves primárias"]).

(** The [INSERT] statement pushed for a row. *)
Definition insertStatement (tableName : jsstring) (columnList insertValues : list jsstring)
  : jsstring :=
  lit "INSERT INTO " ++ tableName ++ lit " (" ++ join (lit ", ") columnList
  ++ lit ") VALUES (" ++ join (lit ", ") insertValues
  ++ lit ") ON CONFLICT DO NOTHING;".

(** The entry the [catch] clause pushes on [this.errors]. *)
Definition rowError (lineCount : nat) (tableName message : jsstring) : jsstring :=
  lit "Erro na linha " ++ ofNat (lineCount + 1) ++ lit " da tabela " ++ tableName
  ++ lit ": " ++ message.

(** [generateInsertScript] calls the tokenizer and the classifier as methods of
    [this] inside a [try]; the assembler is written over any two such methods,
    each of which may return or throw. *)
Section Assembler.
Variable parseMethod : jsstring -> completion (list jsstring).
Variable formatMethod : jsstring -> completion jsstring.

(** [values.map(v => this.formatValueAdvanced(v))] *)
Fixpoint mapFormat (values : list jsstring) : completion (list jsstring) :=
  match values with
  | [] => Normal []
  | v :: values' =>
      match formatMethod v with
      | Throw m => Throw m
      | Normal x =>
          match mapFormat values' with
          | Throw m => Throw m
          | Normal xs => Normal (x :: xs)
          end
      end
  end.

(** The [try] block up to the statement it pushes. *)
Definition tryRow (tableName : jsstring) (columnList : list jsstring)
    (line : jsstring) : completion jsstring :=
  match parseMethod line with
  | Throw m => Throw m
  | Normal values =>
      match mapFormat values with
      | Throw m => Throw m
      | Normal insertValues =>
          Normal (insertStatement tableName columnList insertValues)
      end
  end.

(** The state of the inner loop: [script], [lineCount], [this.errors]. *)
Definition rowState : Type := list jsstring * nat * list jsstring.

(** One iteration of [for (const line of dataLines)]. *)
Definition rowStep (tableName : jsstring) (columnList : list jsstring)
    (st : rowState) (line : jsstring) : rowState :=
  let '(script, lineCount, errors) := st in
  if falsy (trim line) then st
  else match tryRow tableName columnList line with
       | Normal statement => (script ++ [statement], S lineCount, errors)
       | Throw message =>
           (script, lineCount, errors ++ [rowError lineCount tableName message])
       end.

(** One iteration of [for (const copySection of this.data.copies)]. *)
Definition tableStep (st : list jsstring * list jsstring)
    (copySection : copySection) : list jsstring * list jsstring :=
  let '(script, errors) := st in
  let tableName := table copySection in
  let columnList := columnListOf (columns copySection) in
  let dataLines := split LF (data copySection) in
  let '(script', lineCount, errors') :=
    fold_left (rowStep tableName columnList) dataLines
      (script ++ [lit "-- Dados para " ++ tableName], O, errors) in
  let script'' :=
    if (0 <? lineCount)%nat
    then script' ++ [lit "-- " ++ ofNat lineCount ++ lit " registros inseridos em "
                       ++ tableName]
    else script' in
  (script'' ++ [[]], errors').

(** The trailing block of warnings. *)
Definition addWarnings (script errors : list jsstring) : list jsstring :=
  match errors with
  | [] => script
  | _ :: _ =>
      script
      ++ [lit "-- AVISOS:";
          lit "-- Os seguintes erros foram encontrados durante o processamento:"]
      ++ map (fun error => lit "-- " ++ error) errors
      ++ [[]]
  end.

(** The array [script] at the [return] of [generateInsertScript], and
    [this.errors] then; [now] is [new Date().toISOString()]. *)
Definition scriptLinesWith (now : jsstring) (copies : list copySection)
    (errors : list jsstring) : list jsstring * list jsstring :=
  let script :=
    [lit "-- Script de Inserção de Dados via INSERT INTO";
     lit "-- Gerado automaticamente a partir do dump";
     lit "-- Data: " ++ now;
     lit "-- Versão: Advanced";
     []] in
  let script := addTriggerManagement script false in
  let script := script ++ [lit "-- Inserir dados"] in
  let '(script, errors) := fold_left tableStep copies (script, errors) in
  let script := addTriggerManagement script true in
  let script := addSequenceAdjustment copies script in
  (addWarnings script errors, errors).

Definition generateInsertScriptWith (now : jsstring) (copies : list copySection)
    (errors : list jsstring) : jsstring * list jsstring :=
  let '(script, errors') := scriptLinesWith now copies errors in
  (join [LF] script, errors').
End Assembler.

(** The methods of the class itself: both return on every string. *)
Definition parseCopyLineM (line : jsstring) : completion (list jsstring) :=
  Normal (parseCopyLine line).
Definition formatValueAdvancedM (value : jsstring) : completion jsstring :=
  Normal (formatValueAdvanced value).

Definition scriptLines := scriptLinesWith parseCopyLineM formatValueAdvancedM.
Definition generateInsertScript :=
  generateInsertScriptWith parseCopyLineM formatValueAdvancedM.

(** [main]: a new extractor, [processDump], then the script [saveScript]
    writes; the result is the text of the output file and [extractor.errors]. *)
Definition run (now : jsstring) (content : jsstring) : jsstring * list jsstring :=
  generateInsertScript now (processDump content) [].

(** * What the specification says

    The definitions of this part follow the words of the specification; the
    theorems below compare them with the program. *)

Module Spec.

Definition IsDigit (c : char) : Prop := 48 <= c <= 57.

(** one or more digits *)
Definition Digits (s : jsstring) : Prop := s <> [] /\ Forall IsDigit s.

(** rule 1: the COPY NULL marker or the empty string *)
Definition IsNull (v : jsstring) : Prop := v = lit "\N" \/ v = [].

(** rule 2: an optional leading minus, one or more digits, and optionally a
    dot followed by digits *)
Definition NumericShape (v : jsstring) : Prop :=
  exists sign int frac,
    v = sign ++ int ++ frac /\
    (sign = [] \/ sign = lit "-") /\
    Digits int /\
    (frac = [] \/ exists ds, frac = lit "." ++ ds /\ Digits ds).

(** rule 3: exactly [t] or exactly [f] *)
Definition IsBoolean (v : jsstring) : Prop := v = lit "t" \/ v = lit "f".

(** rule 4: starts with an opening and ends with the matching closing bracket *)
Definition StartsWith (v p : jsstring) : Prop := exists rest, v = p ++ rest.
Definition EndsWith (v p : jsstring) : Prop := exists front, v = front ++ p.
Definition Bracketed (v : jsstring) : Prop :=
  (StartsWith v (lit "{") /\ EndsWith v (lit "}")) \/
  (StartsWith v (lit "[") /\ EndsWith v (lit "]")).

(** rule 5: a 4-digit-dash-2-digit-dash-2-digit prefix, and a colon somewhere *)
Definition DatePrefix (v : jsstring) : Prop :=
  exists y m d rest,
    v = y ++ lit "-" ++ m ++ lit "-" ++ d ++ rest /\
    List.length y = 4%nat /\ Forall IsDigit y /\
    List.length m = 2%nat /\ Forall IsDigit m /\
    List.length d = 2%nat /\ Forall IsDigit d.
Definition TimestampLike (v : jsstring) : Prop := DatePrefix v /\ In 58 v.

(** every single quote doubled *)
Fixpoint doubleQuotes (v : jsstring) : jsstring :=
  match v with
  | [] => []
  | c :: v' => if c =? QUOTE then QUOTE :: QUOTE :: doubleQuotes v'
               else c :: doubleQuotes v'
  end.

(** every null character removed *)
Definition stripNulls (v : jsstring) : jsstring :=
  filter (fun c => negb (c =? NUL)) v.

Definition inQuotes (v : jsstring) : jsstring := [QUOTE] ++ v ++ [QUOTE].

(** The precedence order of the classifier: the first matching rule wins. *)
Inductive Classify (v : jsstring) : jsstring -> Prop :=
| rule_null :
    IsNull v -> Classify v (lit "NULL")
| rule_numeric :
    ~ IsNull v -> NumericShape v -> Classify v v
| rule_boolean :
    ~ IsNull v -> ~ NumericShape v -> IsBoolean v -> Classify v (inQuotes v)
| rule_bracketed :
    ~ IsNull v -> ~ NumericShape v -> ~ IsBoolean v -> Bracketed v ->
    Classify v (inQuotes (doubleQuotes v))
| rule_timestamp :
    ~ IsNull v -> ~ NumericShape v -> ~ IsBoolean v -> ~ Bracketed v ->
    TimestampLike v -> Classify v (inQuotes (doubleQuotes v))
| rule_default :
    ~ IsNull v -> ~ NumericShape v -> ~ IsBoolean v -> ~ Bracketed v ->
    ~ TimestampLike v ->
    Classify v (inQuotes (stripNulls (doubleQuotes v))).

(** The content of a field: its backslash escapes decoded.  [\N] stays as it
    is, [\t] is a tab, [\n] a newline, [\\] one backslash; any other backslash
    is kept and the character after it is read on its own. *)
Fixpoint unescape (field : jsstring) : jsstring :=
  match field with
  | [] => []
  | c :: rest =>
      if c =? BACKSLASH then
        match rest with
        | [] => [BACKSLASH]
        | next :: rest' =>
            if next =? 78 then BACKSLASH :: 78 :: unescape rest'
            else if next =? 116 then TAB :: unescape rest'
            else if next =? 110 then LF :: unescape rest'
            else if next =? BACKSLASH then BACKSLASH :: unescape rest'
            else BACKSLASH :: unescape rest
        end
      else c :: unescape rest
  end.

(** The fields of a row: the pieces between its tab characters, decoded. *)
Definition fieldsOf (row : jsstring) : list jsstring :=
  map unescape (split TAB row).

(** The last field is emitted only when it is not empty. *)
Definition dropEmptyLast (fields : list jsstring) : list jsstring :=
  match last fields [] with
  | [] => removelast fields
  | _ :: _ => fields
  end.

Definition tokenize (row : jsstring) : list jsstring :=
  dropEmptyLast (fieldsOf row).

Definition countTabs (row : jsstring) : nat :=
  List.length (filter (N.eqb TAB) row).

(** The row is empty or its last character is a tab. *)
Definition endsAtDelimiter (row : jsstring) : bool :=
  match rev row with
  | [] => true
  | c :: _ => c =? TAB
  end.

(** The name contains [id], whatever the case of the two letters. *)
Fixpoint containsIdCI (name : jsstring) : bool :=
  match name with
  | [] => false
  | a :: rest =>
      (((a =? 73) || (a =? 105))
       && match rest with
          | b :: _ => (b =? 68) || (b =? 100)
          | [] => false
          end)
      || containsIdCI rest
  end.

(** How many sequence-adjustment blocks a script holds: a block starts at a
    line [DO $$] that is followed by [DECLARE] and the declaration of
    [seq_name] (the two trigger blocks declare [r RECORD] there). *)
Definition startsSequenceBlock (l : jsstring) (script' : list jsstring) : bool :=
  eqs l (lit "DO $$")
  && match script' with
     | l' :: l'' :: _ => eqs l' (lit "DECLARE") && eqs l'' (lit "    seq_name text;")
     | _ => false
     end.

Fixpoint countSequenceBlocks (script : list jsstring) : nat :=
  match script with
  | [] => O
  | l :: script' =>
      ((if startsSequenceBlock l script' then 1 else 0)
       + countSequenceBlocks script')%nat
  end.

(** The columns of a block that get a sequence adjustment, by the rule of the
    specification. *)
Definition idColumnsOf (b : copySection) : list jsstring :=
  filter containsIdCI (columnListOf (columns b)).

(** The shape of a COPY header: a schema, a double-quoted table name, a
    parenthesized column list, [FROM stdin] and an optional semicolon; the
    table identifier is the schema with the quoted name. *)
Definition HeaderShape (line t c : jsstring) : Prop :=
  exists schema name semi,
    line = lit "COPY " ++ schema ++ [DQUOTE] ++ name ++ [DQUOTE]
           ++ lit " (" ++ c ++ lit ") FROM stdin" ++ semi /\
    t = schema ++ [DQUOTE] ++ name ++ [DQUOTE] /\
    schema <> [] /\ ~ In DQUOTE schema /\
    name <> [] /\ ~ In DQUOTE name /\
    c <> [] /\ ~ In RPAREN c /\
    (semi = [] \/ semi = lit ";").

(** A line of the dump is a COPY header; the terminator of a block. *)
Definition isHeader (raw : jsstring) : bool := isSome (copyMatch (stripCR raw)).
Definition isTerminator (raw : jsstring) : bool := eqs (stripCR raw) (lit "\.").

(** A row is blank: the encoder skips it. *)
Definition isBlank (line : jsstring) : bool := forallb isWhiteSpace line.

Section Rows.
Variable parseMethod : jsstring -> completion (list jsstring).
Variable formatMethod : jsstring -> completion jsstring.
Variable tableName : jsstring.
Variable columnList : list jsstring.

Local Abbreviation encode := (tryRow parseMethod formatMethod tableName columnList).

(** The statements of the rows that are not blank and encode. *)
Definition insertsOf (rows : list jsstring) : list jsstring :=
  flat_map (fun line =>
              if isBlank line then []
              else match encode line with
                   | Normal statement => [statement]
                   | Throw _ => []
                   end) rows.

(** The messages of the rows that are not blank and raise. *)
Definition failuresOf (rows : list jsstring) : list jsstring :=
  flat_map (fun line =>
              if isBlank line then []
              else match encode line with
                   | Normal _ => []
                   | Throw message => [message]
                   end) rows.


(** The entries the rows add to the error list when [n] statements have
    been pushed for the table so far: the number in an entry is one more
    than the count of statements pushed before the row. *)
Fixpoint errorEntries (n : nat) (rows : list jsstring) : list jsstring :=
  match rows with
  | [] => []
  | line :: rows' =>
      if isBlank line then errorEntries n rows'
      else match encode line with
           | Normal _ => errorEntries (S n) rows'
           | Throw message => rowError n tableName message :: errorEntries n rows'
           end
  end.
End Rows.

Section Tables.
Variable parseMethod : jsstring -> completion (list jsstring).
Variable formatMethod : jsstring -> completion jsstring.

(** The rows of a block, as the encoder reads them back. *)
Definition rowsOf (b : copySection) : list jsstring := split LF (data b).

Definition tableInserts (b : copySection) : list jsstring :=
  insertsOf parseMethod formatMethod (table b) (columnListOf (columns b)) (rowsOf b).

Definition tableErrors (b : copySection) : list jsstring :=
  errorEntries parseMethod formatMethod (table b) (columnListOf (columns b)) O
    (rowsOf b).

(** The part of the script that belongs to one table: its comment, one
    statement for each row inserted, the count when it is not zero, and an
    empty line. *)
Definition tableSection (b : copySection) : list jsstring :=
  [lit "-- Dados para " ++ table b]
  ++ tableInserts b
  ++ match List.length (tableInserts b) with
     | O => []
     | S _ => [lit "-- " ++ ofNat (List.length (tableInserts b))
                 ++ lit " registros inseridos em " ++ table b]
     end
  ++ [[]].

(** The script without its trailing warnings. *)
Definition scriptBody (now : jsstring) (copies : list copySection) : list jsstring :=
  [lit "-- Script de Inserção de Dados via INSERT INTO";
   lit "-- Gerado automaticamente a partir do dump";
   lit "-- Data: " ++ now;
   lit "-- Versão: Advanced";
   []]
  ++ addTriggerManagement [] false
  ++ [lit "-- Inserir dados"]
  ++ flat_map tableSection copies
  ++ addTriggerManagement [] true
  ++ addSequenceAdjustment copies [].
End Tables.

(** The lines that close a script with errors: a comment line for each. *)
Definition warningLines (errors : list jsstring) : list jsstring :=
  [lit "-- AVISOS:";
   lit "-- Os seguintes erros foram encontrados durante o processamento:"]
  ++ map (fun error => lit "-- " ++ error) errors
  ++ [[]].

(** No row of a block, open or closed, is a header line. *)
Definition notHeader (row : jsstring) : Prop := copyMatch row = None.
Definition cleanRow (row : jsstring) : Prop := notHeader row /\ ~ In LF row.

Definition NoHeaderRows (st : scanState) : Prop :=
  (forall cur, currentCopy st = Some cur -> Forall cleanRow (open_data cur)) /\
  Forall (fun b => Forall notHeader (rowsOf b)) (copies st).

(** The state of the tokenizer loop continues a field. *)
Definition glue (current : jsstring) (fields : list jsstring) : list jsstring :=
  (current ++ hd [] fields) :: tl fields.

(** The characters that make an escape after a backslash. *)
Definition escapable (next : char) : bool :=
  (next =? 78) || (next =? 116) || (next =? 110) || (next =? BACKSLASH).

End Spec.
Import Spec.

(** ** Sample inputs *)

Module Samples.

Definition mediaHeader : jsstring :=
  lit "COPY public." ++ [DQUOTE] ++ lit "media" ++ [DQUOTE]
  ++ lit " (id, name) FROM stdin;".

Definition usersHeader : jsstring :=
  lit "COPY public." ++ [DQUOTE] ++ lit "users" ++ [DQUOTE]
  ++ lit " (id, email) FROM stdin;".

Definition mediaTable : jsstring := lit "public." ++ [DQUOTE] ++ lit "media" ++ [DQUOTE].

(** A block whose first row ends in a backslash with nothing after it. *)
Definition unbalancedDump : jsstring :=
  join [LF]
    [mediaHeader;
     lit "1" ++ [TAB] ++ lit "abc\";
     lit "2" ++ [TAB] ++ lit "ok";
     lit "\.";
     []].

(** A block that is closed, then one that is opened and never closed. *)
Definition openEndedDump : jsstring :=
  join [LF]
    [usersHeader; lit "7" ++ [TAB] ++ lit "a@b.c"; lit "\.";
     mediaHeader; lit "1" ++ [TAB] ++ lit "lost"; []].

(** A block with three fields in a row, and two columns. *)
Definition wideRow : jsstring := lit "1" ++ [TAB] ++ lit "a" ++ [TAB] ++ lit "b".
Definition wideBlock : copySection := mkCopy mediaTable (lit "id, name") wideRow.



End Samples.

(** * The earlier extractors

    The repository keeps two more versions of the tool: the basic
    [DumpExtractor] of [extract_inserts.js], and the advanced extractor as it
    was before its trigger and sequence code moved into methods.  Their
    [processDump] and [parseCopyLine] are, character for character, the ones
    above. *)

Module Basic.

(** [formatValue] of the basic extractor. *)
Definition formatValue (value : jsstring) : jsstring :=
  if eqs value (lit "\N") || eqs value [] then lit "NULL"
  else if numericTest value then value
  else if eqs value (lit "t") || eqs value (lit "f") then quoted value
  else quoted (escapeQuotes value).

(** One iteration of [for (const line of dataLines)]: no [try] here. *)
Definition rowStep (tableName : jsstring) (columnList : list jsstring)
    (script : list jsstring) (line : jsstring) : list jsstring :=
  if falsy (trim line) then script
  else
    let values := parseCopyLine line in
    let insertValues := map formatValue values in
    script ++ [insertStatement tableName columnList insertValues].

(** One iteration of the first [for (const copySection of this.data.copies)]. *)
Definition tableStep (script : list jsstring) (copySection : copySection)
  : list jsstring :=
  let tableName := table copySection in
  let columnList := columnListOf (columns copySection) in
  let dataLines := split LF (data copySection) in
  fold_left (rowStep tableName columnList) dataLines
    (script ++ [lit "-- Dados para " ++ tableName])
  ++ [[]].

(** One iteration of the second loop: one [setval] on the column [id] of a
    table whose column list, as a whole, contains [id]. *)
Definition sequenceStep (script : list jsstring) (copySection : copySection)
  : list jsstring :=
  let tableName := table copySection in
  if includes (toLowerCase (columns copySection)) (lit "id") then
    script
    ++ [lit "-- Ajustar sequence para " ++ tableName;
        lit "SELECT setval(pg_get_serial_sequence('" ++ tableName
        ++ lit "', 'id'), (SELECT MAX(id) FROM " ++ tableName ++ lit "));";
        []]
  else script.

(** The lines pushed before the loop over the tables. *)
Definition preamble (now : jsstring) : list jsstring :=
  [lit "-- Script de Inserção de Dados via INSERT INTO";
   lit "-- Gerado automaticamente a partir do dump";
   lit "-- Data: " ++ now;
   [];
   lit "-- Desabilitar triggers para evitar problemas com foreign keys";
   lit "DO $$";
   lit "DECLARE";
   lit "r RECORD;";
   lit "BEGIN";
   lit "FOR r IN";
   lit "SELECT conname, conrelid::regclass::text AS table_name";
   lit "FROM pg_constraint";
   lit "WHERE contype = 'f'";
   lit "LOOP";
   lit "EXECUTE format('ALTER TABLE %s DISABLE TRIGGER ALL', r.table_name);";
   lit "END LOOP;";
   lit "END $$;";
   [];
   lit "-- Inserir dados"].

(** The lines pushed between the two loops. *)
Definition enableLines : list jsstring :=
  [lit "-- Reabilitar triggers";
   lit "DO $$";
   lit "DECLARE";
   lit "r RECORD;";
   lit "BEGIN";
   lit "FOR r IN";
   lit "SELECT conname, conrelid::regclass::text AS table_name";
   lit "FROM pg_constraint";
   lit "WHERE contype = 'f'";
   lit "LOOP";
   lit "EXECUTE format('ALTER TABLE %s ENABLE TRIGGER ALL', r.table_name);";
   lit "END LOOP;";
   lit "END $$;";
   [];
   lit "-- Ajustar sequences das chaves primárias"].

(** The array [script] at the [return] of [generateInsertScript]. *)
Definition scriptLines (now : jsstring) (copies : list copySection) : list jsstring :=
  let script := preamble now in
  let script := fold_left tableStep copies script in
  let script := script ++ enableLines in
  fold_left sequenceStep copies script.

Definition generateInsertScript (now : jsstring) (copies : list copySection)
  : jsstring :=
  join [LF] (scriptLines now copies).

End Basic.

Module Legacy.

(** The lines pushed for one column by the sequence loop. *)
Definition sequenceLines (tableName idCol : jsstring) : list jsstring :=
  [lit "-- Ajustar sequence para " ++ tableName ++ lit "." ++ idCol;
   lit "SELECT setval(pg_get_serial_sequence('" ++ tableName ++ lit "', '" ++ idCol
   ++ lit "'), COALESCE((SELECT MAX(" ++ idCol ++ lit ") FROM " ++ tableName
   ++ lit "), 1));";
   []].

(** One iteration of the sequence loop over [this.data.copies]. *)
Definition sequenceStep (script : list jsstring) (copySection : copySection)
  : list jsstring :=
  let idColumns := filter isIdColumn (columnListOf (columns copySection)) in
  script ++ flat_map (sequenceLines (table copySection)) idColumns.

(** The lines pushed before the loop over the tables. *)
Definition preamble (now : jsstring) : list jsstring :=
  [lit "-- Script de Inserção de Dados via INSERT INTO";
   lit "-- Gerado automaticamente a partir do dump";
   lit "-- Data: " ++ now;
   lit "-- Versão: Advanced";
   [];
   lit "-- Desabilitar triggers para evitar problemas com foreign keys";
   lit "DO $$";
   lit "DECLARE";
   lit "r RECORD;";
   lit "BEGIN";
   lit "FOR r IN";
   lit "SELECT conname, conrelid::regclass::text AS table_name";
   lit "FROM pg_constraint";
   lit "WHERE contype = 'f'";
   lit "LOOP";
   lit "EXECUTE format('ALTER TABLE %s DISABLE TRIGGER ALL', r.table_name);";
   lit "END LOOP;";
   lit "END $$;";
   [];
   lit "-- Inserir dados"].

(** The lines pushed between the two loops. *)
Definition enableLines : list jsstring :=
  [lit "-- Reabilitar triggers";
   lit "DO $$";
   lit "DECLARE";
   lit "r RECORD;";
   lit "BEGIN";
   lit "FOR r IN";
   lit "SELECT conname, conrelid::regclass::text AS table_name";
   lit "FROM pg_constraint";
   lit "WHERE contype = 'f'";
   lit "LOOP";
   lit "EXECUTE format('ALTER TABLE %s ENABLE TRIGGER ALL', r.table_name);";
   lit "END LOOP;";
   lit "END $$;";
   [];
   lit "-- Ajustar sequences das chaves primárias"].

(** The array [script] at the [return] of [generateInsertScript], and
    [this.errors] then.  The loop over the tables is the one of the later
    version, [try] and [catch] included. *)
Definition scriptLines (now : jsstring) (copies : list copySection)
    (errors : list jsstring) : list jsstring * list jsstring :=
  let script := preamble now in
  let '(script, errors) :=
    fold_left (tableStep parseCopyLineM formatValueAdvancedM) copies (script, errors) in
  let script := script ++ enableLines in
  let script := fold_left sequenceStep copies script in
  (addWarnings script errors, errors).

Definition generateInsertScript (now : jsstring) (copies : list copySection)
    (errors : list jsstring) : jsstring * list jsstring :=
  let '(script, errors') := scriptLines now copies errors in
  (join [LF] script, errors').

End Legacy.

(** * Further notions for the properties of the code *)

Module Props.

(** The text form a field has in a COPY row, for the three characters the
    tokenizer decodes: a backslash, a tab and a newline are written as
    backslash escapes. *)
Fixpoint copyEscape (field : jsstring) : jsstring :=
  match field with
  | [] => []
  | c :: rest =>
      if c =? BACKSLASH then BACKSLASH :: BACKSLASH :: copyEscape rest
      else if c =? TAB then BACKSLASH :: 116 :: copyEscape rest
      else if c =? LF then BACKSLASH :: 110 :: copyEscape rest
      else c :: copyEscape rest
  end.

(** The content of a string literal body: a doubled quote stands for a quote,
    a single one does not belong there. *)
Fixpoint undouble (body : jsstring) : option jsstring :=
  match body with
  | [] => Some []
  | c :: rest =>
      if c =? QUOTE then
        match rest with
        | c' :: rest' =>
            if c' =? QUOTE then option_map (cons QUOTE) (undouble rest') else None
        | [] => None
        end
      else option_map (cons c) (undouble rest)
  end.

(** The value of a single-quoted SQL string literal. *)
Definition sqlLiteralValue (literal : jsstring) : option jsstring :=
  match literal with
  | q :: rest =>
      if q =? QUOTE then
        match rev rest with
        | q' :: body => if q' =? QUOTE then undouble (rev body) else None
        | [] => None
        end
      else None
  | [] => None
  end.

(** The rows of a block that get a statement: those that are not blank. *)
Definition insertedRows (b : copySection) : list jsstring :=
  filter (fun line => negb (isBlank line)) (rowsOf b).

(** The statement of a row, with the classifier of the advanced extractor. *)
Definition statementOf (b : copySection) (line : jsstring) : jsstring :=
  insertStatement (table b) (columnListOf (columns b))
    (map formatValueAdvanced (parseCopyLine line)).

(** The section of a table in the script of the advanced extractor. *)
Definition sectionOf (b : copySection) : list jsstring :=
  [lit "-- Dados para " ++ table b]
  ++ map (statementOf b) (insertedRows b)
  ++ match insertedRows b with
     | [] => []
     | _ :: _ => [lit "-- " ++ ofNat (List.length (insertedRows b))
                    ++ lit " registros inseridos em " ++ table b]
     end
  ++ [[]].

(** The five lines every script of the advanced extractor starts with. *)
Definition headerLines (now : jsstring) : list jsstring :=
  [lit "-- Script de Inserção de Dados via INSERT INTO";
   lit "-- Gerado automaticamente a partir do dump";
   lit "-- Data: " ++ now;
   lit "-- Versão: Advanced";
   []].

(** What a scan state holds comes from header lines of [lines]. *)
Definition FromHeaders (lines : list jsstring) (st : scanState) : Prop :=
  (forall cur, currentCopy st = Some cur ->
     exists h, In h lines /\
       copyMatch (stripCR h) = Some (open_table cur, open_columns cur)) /\
  Forall (fun b => exists h, In h lines /\
            copyMatch (stripCR h) = Some (table b, columns b))
         (copies st).

(** The lines of a text with Windows line ends: all but the last end in a
    carriage return. *)
Fixpoint withCR (lines : list jsstring) : list jsstring :=
  match lines with
  | [] => []
  | [l] => [l]
  | l :: lines' => (l ++ [CR]) :: withCR lines'
  end.

(** The first character is [d] or [D]. *)
Definition startsD (s : jsstring) : bool :=
  match s with
  | b :: _ => (b =? 68) || (b =? 100)
  | [] => false
  end.

End Props.
Import Props.

(** * Theorems *)

(** ** Strings *)

Lemma eqs_spec (a b : jsstring) : eqs a b = true <-> a = b.
Proof.
  revert b; induction a as [|x a IH]; intros [|y b]; simpl; split; intro H;
    try reflexivity; try discriminate.
  - apply andb_true_iff in H as [Hx Hab]. apply N.eqb_eq in Hx.
    apply IH in Hab. now subst.
  - injection H as -> ->. rewrite N.eqb_refl. simpl. now apply IH.
Qed.

Lemma eqs_false (a b : jsstring) : eqs a b = false <-> a <> b.
Proof.
  rewrite <- eqs_spec. destruct (eqs a b); split; intro H;
    try reflexivity; try discriminate; try easy.
Qed.

Lemma startsWith_spec (s p : jsstring) : startsWith s p = true <-> StartsWith s p.
Proof.
  unfold StartsWith. revert s; induction p as [|y p IH]; intros s; simpl.
  - split; [intros _; now exists s | now destruct s].
  - destruct s as [|x s]; simpl.
    + split; [discriminate | intros [r H]; discriminate].
    + rewrite andb_true_iff, N.eqb_eq, IH. split.
      * intros [-> [r ->]]. now exists r.
      * intros [r H]. injection H as -> ->. split; [reflexivity | now exists r].
Qed.

Lemma endsWith_spec (s p : jsstring) : endsWith s p = true <-> EndsWith s p.
Proof.
  unfold endsWith, EndsWith. rewrite startsWith_spec. unfold StartsWith. split.
  - intros [r H]. exists (rev r).
    rewrite <- (rev_involutive s), H, rev_app_distr, rev_involutive. reflexivity.
  - intros [f ->]. exists (rev f). apply rev_app_distr.
Qed.

Lemma startsWith_nil (s : jsstring) : startsWith s [] = true.
Proof. now destruct s. Qed.

Lemma includes_char (s : jsstring) (c : char) : includes s [c] = true <-> In c s.
Proof.
  induction s as [|x s IH]; simpl.
  - split; [discriminate | tauto].
  - rewrite startsWith_nil, orb_true_iff, IH, andb_true_r, N.eqb_eq. tauto.
Qed.

Lemma escapeQuotes_doubleQuotes (v : jsstring) : escapeQuotes v = doubleQuotes v.
Proof.
  unfold escapeQuotes, replaceAll.
  induction v as [|c v IH]; simpl; [reflexivity|].
  rewrite IH. now destruct (c =? QUOTE).
Qed.

Lemma replaceAll_delete (c : char) (s : jsstring) :
  replaceAll c [] s = filter (fun x => negb (x =? c)) s.
Proof.
  unfold replaceAll. induction s as [|x s IH]; simpl; [reflexivity|].
  rewrite IH. now destruct (x =? c).
Qed.

Lemma quoted_inQuotes (v : jsstring) : quoted v = inQuotes v.
Proof. reflexivity. Qed.

(** ** Regular expressions: what a successful match means *)

Lemma digit_spec (c : char) : digit c = true <-> IsDigit c.
Proof. unfold digit, IsDigit. rewrite andb_true_iff, !N.leb_le. tauto. Qed.

Lemma forallb_digit (s : jsstring) : forallb digit s = true <-> Forall IsDigit s.
Proof.
  rewrite forallb_forall, Forall_forall.
  split; intros H c Hc; apply digit_spec, H, Hc.
Qed.

Section MatcherFacts.
Context {R : Type}.
Implicit Types (k : @cont R) (s : jsstring) (p : char -> bool).

Lemma isSome_orElse (a b : option R) :
  isSome (orElse a b) = isSome a || isSome b.
Proof. now destruct a. Qed.

Lemma cls_spec p s k :
  isSome (cls p s k) = true <->
  exists c s', s = c :: s' /\ p c = true /\ isSome (k s') = true.
Proof.
  destruct s as [|c s']; simpl.
  - split; [discriminate | intros (c & s' & H & _); discriminate].
  - destruct (p c) eqn:Hp.
    + split; [intro H; now exists c, s' |].
      intros (c0 & s0 & H & _ & Hk). now injection H as -> ->.
    + split; [discriminate |].
      intros (c0 & s0 & H & Hp0 & _). injection H as -> ->. congruence.
Qed.

Lemma star_spec p s k :
  isSome (star p s k) = true <->
  exists pre rest, s = pre ++ rest /\ forallb p pre = true /\ isSome (k rest) = true.
Proof.
  split.
  - induction s as [|c s IH]; simpl.
    + intro H. now exists [], [].
    + destruct (p c) eqn:Hp.
      * rewrite isSome_orElse, orb_true_iff. intros [H|H].
        -- destruct (IH H) as (pre & rest & -> & Hpre & Hk).
           exists (c :: pre), rest. simpl. now rewrite Hp.
        -- now exists [], (c :: s).
      * intro H. now exists [], (c :: s).
  - intros (pre & rest & -> & Hpre & Hk).
    induction pre as [|c pre IH]; simpl in *.
    + destruct rest as [|c rest]; simpl; [exact Hk|].
      destruct (p c); [|exact Hk].
      rewrite isSome_orElse, Hk. apply orb_true_r.
    + apply andb_true_iff in Hpre as [Hc Hpre]. rewrite Hc.
      rewrite isSome_orElse, (IH Hpre). reflexivity.
Qed.

Lemma plus_spec p s k :
  isSome (plus p s k) = true <->
  exists pre rest,
    s = pre ++ rest /\ pre <> [] /\ forallb p pre = true /\ isSome (k rest) = true.
Proof.
  unfold plus. rewrite cls_spec. split.
  - intros (c & s' & -> & Hc & H). apply star_spec in H as (pre & rest & -> & Hpre & Hk).
    exists (c :: pre), rest. simpl. rewrite Hc. repeat split; try easy.
  - intros (pre & rest & -> & Hne & Hpre & Hk).
    destruct pre as [|c pre]; [easy|]. simpl in Hpre.
    apply andb_true_iff in Hpre as [Hc Hpre].
    exists c, (pre ++ rest). repeat split; try easy.
    apply star_spec. now exists pre, rest.
Qed.

Lemma rep_spec n p s k :
  isSome (rep n p s k) = true <->
  exists pre rest,
    s = pre ++ rest /\ List.length pre = n /\ forallb p pre = true
    /\ isSome (k rest) = true.
Proof.
  revert s; induction n as [|n IH]; intro s; simpl.
  - unfold empty. split.
    + intro H. now exists [], s.
    + intros (pre & rest & -> & Hlen & _ & Hk).
      now destruct pre.
  - unfold seq. rewrite cls_spec. split.
    + intros (c & s' & -> & Hc & H).
      apply IH in H as (pre & rest & -> & Hlen & Hpre & Hk).
      exists (c :: pre), rest. simpl. rewrite Hc, Hlen. now repeat split.
    + intros (pre & rest & -> & Hlen & Hpre & Hk).
      destruct pre as [|c pre]; [discriminate|]. simpl in *.
      apply andb_true_iff in Hpre as [Hc Hpre].
      exists c, (pre ++ rest). repeat split; try easy.
      apply IH. exists pre, rest. repeat split; try easy. lia.
Qed.

Lemma chr_spec c s k :
  isSome (cls (chr c) s k) = true <->
  exists s', s = c :: s' /\ isSome (k s') = true.
Proof.
  rewrite cls_spec. unfold chr. split.
  - intros (x & s' & -> & Hx & Hk). apply N.eqb_eq in Hx. subst. now exists s'.
  - intros (s' & -> & Hk). exists c, s'. now rewrite N.eqb_refl.
Qed.

Lemma atEnd_spec (r : R) s : isSome (atEnd r s) = true <-> s = [].
Proof. destruct s; simpl; split; intro H; try easy. Qed.
End MatcherFacts.

(** ** The two patterns of the classifier *)

Lemma fraction_spec (s : jsstring) :
  isSome (opt (seq (cls (chr 46)) (plus digit)) s (atEnd tt)) = true <->
  (s = [] \/ exists ds, s = lit "." ++ ds /\ Digits ds).
Proof.
  unfold opt, seq. rewrite isSome_orElse, orb_true_iff, chr_spec, atEnd_spec.
  split.
  - intros [(s' & -> & H)|H]; [right|now left].
    apply plus_spec in H as (pre & rest & -> & Hne & Hd & Hend).
    apply atEnd_spec in Hend. subst rest. rewrite app_nil_r.
    exists pre. split; [reflexivity|]. split; [exact Hne|]. now apply forallb_digit.
  - intros [->|(ds & -> & Hne & Hd)]; [now right|left].
    exists ds. split; [reflexivity|]. apply plus_spec.
    exists ds, []. rewrite app_nil_r. repeat split; try easy.
    now apply forallb_digit.
Qed.

Lemma unsigned_spec (s : jsstring) :
  isSome (seq (plus digit) (opt (seq (cls (chr 46)) (plus digit))) s (atEnd tt)) = true <->
  exists int frac,
    s = int ++ frac /\ Digits int /\
    (frac = [] \/ exists ds, frac = lit "." ++ ds /\ Digits ds).
Proof.
  unfold seq at 1. rewrite plus_spec. split.
  - intros (int & frac & -> & Hne & Hd & H). exists int, frac.
    split; [reflexivity|]. split; [split; [exact Hne | now apply forallb_digit]|].
    now apply fraction_spec.
  - intros (int & frac & -> & [Hne Hd] & H). exists int, frac.
    repeat split; try easy; [now apply forallb_digit | now apply fraction_spec].
Qed.

Lemma numericTest_spec (v : jsstring) : numericTest v = true <-> NumericShape v.
Proof.
  unfold numericTest, NumericShape. unfold seq at 1. unfold opt at 1.
  rewrite isSome_orElse, orb_true_iff, chr_spec.
  fold (seq (plus digit) (opt (seq (cls (chr 46)) (plus digit))) (R := unit)).
  split.
  - intros [(s' & -> & H)|H].
    + apply unsigned_spec in H as (int & frac & -> & Hi & Hf).
      exists (lit "-"), int, frac. split; [reflexivity|]. split; [now right|]. now split.
    + apply unsigned_spec in H as (int & frac & -> & Hi & Hf).
      exists [], int, frac. split; [reflexivity|]. split; [now left|]. now split.
  - intros (sign & int & frac & -> & [->| ->] & Hi & Hf).
    + right. apply unsigned_spec. now exists int, frac.
    + left. exists (int ++ frac). split; [reflexivity|].
      apply unsigned_spec. now exists int, frac.
Qed.

Lemma datePrefixTest_spec (v : jsstring) : datePrefixTest v = true <-> DatePrefix v.
Proof.
  unfold datePrefixTest, DatePrefix, seq. rewrite rep_spec. split.
  - intros (y & r1 & -> & Hy & Hyd & H).
    apply chr_spec in H as (r2 & -> & H).
    apply rep_spec in H as (m & r3 & -> & Hm & Hmd & H).
    apply chr_spec in H as (r4 & -> & H).
    apply rep_spec in H as (d & rest & -> & Hd & Hdd & _).
    exists y, m, d, rest. rewrite <- !forallb_digit. now repeat split.
  - intros (y & m & d & rest & -> & Hy & Hyd & Hm & Hmd & Hd & Hdd).
    rewrite <- forallb_digit in Hyd, Hmd, Hdd.
    exists y, (lit "-" ++ m ++ lit "-" ++ d ++ rest). repeat split; try easy.
    apply chr_spec. exists (m ++ lit "-" ++ d ++ rest). split; [reflexivity|].
    apply rep_spec. exists m, (lit "-" ++ d ++ rest). repeat split; try easy.
    apply chr_spec. exists (d ++ rest). split; [reflexivity|].
    apply rep_spec. exists d, rest. now repeat split.
Qed.

(** ** The classifier against its rules *)

Lemma isNull_spec (v : jsstring) :
  eqs v (lit "\N") || eqs v [] = true <-> IsNull v.
Proof. unfold IsNull. now rewrite orb_true_iff, !eqs_spec. Qed.

Lemma isBoolean_spec (v : jsstring) :
  eqs v (lit "t") || eqs v (lit "f") = true <-> IsBoolean v.
Proof. unfold IsBoolean. now rewrite orb_true_iff, !eqs_spec. Qed.

Lemma bracketed_spec (v : jsstring) :
  (startsWith v (lit "{") && endsWith v (lit "}"))
  || (startsWith v (lit "[") && endsWith v (lit "]")) = true <-> Bracketed v.
Proof.
  unfold Bracketed.
  now rewrite orb_true_iff, !andb_true_iff, !startsWith_spec, !endsWith_spec.
Qed.

Lemma timestampLike_spec (v : jsstring) :
  datePrefixTest v && includes v (lit ":") = true <-> TimestampLike v.
Proof.
  unfold TimestampLike. rewrite andb_true_iff, datePrefixTest_spec.
  change (lit ":") with [58]. now rewrite includes_char.
Qed.

Lemma not_true_iff (b : bool) (P : Prop) : (b = true <-> P) -> b = false -> ~ P.
Proof. intros H Hb HP. apply H in HP. congruence. Qed.

Lemma formatValueAdvanced_classify (v : jsstring) : Classify v (formatValueAdvanced v).
Proof.
  unfold formatValueAdvanced.
  destruct (eqs v (lit "\N") || eqs v []) eqn:H1.
  { apply rule_null. now apply isNull_spec. }
  apply (not_true_iff _ _ (isNull_spec v)) in H1.
  destruct (numericTest v) eqn:H2.
  { apply rule_numeric; [exact H1 | now apply numericTest_spec]. }
  apply (not_true_iff _ _ (numericTest_spec v)) in H2.
  destruct (eqs v (lit "t") || eqs v (lit "f")) eqn:H3.
  { rewrite quoted_inQuotes. apply rule_boolean; try assumption.
    now apply isBoolean_spec. }
  apply (not_true_iff _ _ (isBoolean_spec v)) in H3.
  rewrite !quoted_inQuotes, replaceAll_delete, escapeQuotes_doubleQuotes.
  match goal with |- context [if ?b then _ else _] => destruct b eqn:H4 end.
  { apply rule_bracketed; try assumption. now apply bracketed_spec. }
  apply (not_true_iff _ _ (bracketed_spec v)) in H4.
  destruct (datePrefixTest v && includes v (lit ":")) eqn:H5.
  { apply rule_timestamp; try assumption. now apply timestampLike_spec. }
  apply (not_true_iff _ _ (timestampLike_spec v)) in H5.
  now apply rule_default.
Qed.

Lemma Classify_functional (v a b : jsstring) : Classify v a -> Classify v b -> a = b.
Proof. intros Ha Hb. destruct Ha; destruct Hb; try reflexivity; contradiction. Qed.

(** C1. The classifier produces the literal of the first rule that matches,
    in the order: NULL marker or empty string; numeric pattern; [t] or [f];
    bracket-delimited; date prefix with a colon; default with quotes doubled
    and null characters removed.  The seven fields of the specification
    classify as it says. *)
Theorem C1_classifier_precedence :
  (forall v out, Classify v out <-> formatValueAdvanced v = out) /\
  formatValueAdvanced (lit "\N") = lit "NULL" /\
  formatValueAdvanced (lit "42") = lit "42" /\
  formatValueAdvanced (lit "3.14") = lit "3.14" /\
  formatValueAdvanced (lit "t") = lit "'t'" /\
  formatValueAdvanced (lit "O'Brien") = lit "'O''Brien'" /\
  formatValueAdvanced (lit "{1,2,3}") = lit "'{1,2,3}'" /\
  formatValueAdvanced (lit "2025-06-09 16:02:21.497") = lit "'2025-06-09 16:02:21.497'".
Proof.
  split; [|repeat split; vm_compute; reflexivity].
  intros v out. split.
  - intro H. exact (Classify_functional v _ _ (formatValueAdvanced_classify v) H).
  - intros <-. apply formatValueAdvanced_classify.
Qed.

(** ** The tokenizer against the field-by-field reading *)

Lemma split_nonempty (c : char) (s : jsstring) : split c s <> [].
Proof.
  destruct s as [|x s]; simpl; [discriminate|].
  destruct (x =? c); [discriminate|]. now destruct (split c s).
Qed.

Lemma split_sep (c : char) (s : jsstring) : split c (c :: s) = [] :: split c s.
Proof. simpl. now rewrite N.eqb_refl. Qed.

Lemma split_other (c x : char) (s : jsstring) :
  x <> c ->
  split c (x :: s) = (x :: hd [] (split c s)) :: tl (split c s).
Proof.
  intro Hx. simpl. apply N.eqb_neq in Hx. rewrite Hx.
  pose proof (split_nonempty c s). now destruct (split c s).
Qed.

Lemma glue_nil (fields : list jsstring) : fields <> [] -> glue [] fields = fields.
Proof. now destruct fields. Qed.

Lemma fieldsOf_nonempty (row : jsstring) : fieldsOf row <> [].
Proof.
  unfold fieldsOf. pose proof (split_nonempty TAB row).
  now destruct (split TAB row).
Qed.

Lemma fieldsOf_tab (row : jsstring) : fieldsOf (TAB :: row) = [] :: fieldsOf row.
Proof. unfold fieldsOf. now rewrite split_sep. Qed.

Lemma fieldsOf_other (x : char) (row : jsstring) :
  x <> TAB ->
  fieldsOf (x :: row)
  = unescape (x :: hd [] (split TAB row)) :: tl (fieldsOf row).
Proof.
  intro Hx. unfold fieldsOf. rewrite (split_other _ _ _ Hx). simpl.
  now destruct (split TAB row).
Qed.

Lemma hd_fieldsOf (row : jsstring) :
  hd [] (fieldsOf row) = unescape (hd [] (split TAB row)).
Proof.
  unfold fieldsOf. pose proof (split_nonempty TAB row).
  now destruct (split TAB row).
Qed.

Lemma removelast_glue (values : list jsstring) (current : jsstring)
    (x : jsstring) (fields : list jsstring) :
  fields <> [] ->
  values ++ removelast (glue current (x :: fields))
  = (values ++ [current ++ x]) ++ removelast (glue [] fields).
Proof.
  intro H. rewrite (glue_nil _ H). unfold glue. simpl.
  destruct fields; [easy|]. now rewrite <- app_assoc.
Qed.

Lemma last_glue (current x : jsstring) (fields : list jsstring) :
  fields <> [] ->
  last (glue current (x :: fields)) [] = last (glue [] fields) [].
Proof.
  intro H. rewrite (glue_nil _ H). unfold glue. simpl. now destruct fields.
Qed.

Lemma glue_push (current piece : jsstring) (fields : list jsstring) :
  glue current ((piece ++ hd [] fields) :: tl fields)
  = glue (current ++ piece) fields.
Proof. unfold glue. simpl. now rewrite app_assoc. Qed.

(** The loop, one character or one escape at a time. *)
Lemma parseLoop_tab rest values current :
  parseLoop (TAB :: rest) values current = parseLoop rest (values ++ [current]) [].
Proof. reflexivity. Qed.

Lemma parseLoop_N rest values current :
  parseLoop (BACKSLASH :: 78 :: rest) values current
  = parseLoop rest values (current ++ lit "\N").
Proof. reflexivity. Qed.

Lemma parseLoop_t rest values current :
  parseLoop (BACKSLASH :: 116 :: rest) values current
  = parseLoop rest values (current ++ [TAB]).
Proof. reflexivity. Qed.

Lemma parseLoop_n rest values current :
  parseLoop (BACKSLASH :: 110 :: rest) values current
  = parseLoop rest values (current ++ [LF]).
Proof. reflexivity. Qed.

Lemma parseLoop_backslash rest values current :
  parseLoop (BACKSLASH :: BACKSLASH :: rest) values current
  = parseLoop rest values (current ++ [BACKSLASH]).
Proof. reflexivity. Qed.

Lemma parseLoop_other next rest values current :
  escapable next = false ->
  parseLoop (BACKSLASH :: next :: rest) values current
  = parseLoop (next :: rest) values (current ++ [BACKSLASH]).
Proof.
  unfold escapable. rewrite !orb_false_iff. intros [[[H1 H2] H3] H4].
  cbn [parseLoop]. change (BACKSLASH =? TAB) with false. cbv iota.
  now rewrite N.eqb_refl, H1, H2, H3, H4.
Qed.

Lemma parseLoop_last values current :
  parseLoop [BACKSLASH] values current = (values, current ++ [BACKSLASH]).
Proof. reflexivity. Qed.

Lemma parseLoop_plain c rest values current :
  c <> TAB -> c <> BACKSLASH ->
  parseLoop (c :: rest) values current = parseLoop rest values (current ++ [c]).
Proof.
  intros H1 H2. apply N.eqb_neq in H1, H2. cbn [parseLoop]. now rewrite H1, H2.
Qed.

Lemma unescape_other next rest :
  escapable next = false ->
  unescape (BACKSLASH :: next :: rest) = BACKSLASH :: unescape (next :: rest).
Proof.
  unfold escapable. rewrite !orb_false_iff. intros [[[H1 H2] H3] H4].
  cbn [unescape]. now rewrite N.eqb_refl, H1, H2, H3, H4.
Qed.

Lemma unescape_plain c rest :
  c <> BACKSLASH -> unescape (c :: rest) = c :: unescape rest.
Proof. intro H. apply N.eqb_neq in H. cbn [unescape]. now rewrite H. Qed.

Lemma escapable_cases next :
  escapable next = true ->
  next = 78 \/ next = 116 \/ next = 110 \/ next = BACKSLASH.
Proof. unfold escapable. rewrite !orb_true_iff, !N.eqb_eq. tauto. Qed.

Lemma hd_split_other (x : char) (rest : jsstring) :
  x <> TAB -> hd [] (split TAB (x :: rest)) = x :: hd [] (split TAB rest).
Proof. intro H. now rewrite (split_other _ _ _ H). Qed.

Lemma tl_fieldsOf_other (x : char) (rest : jsstring) :
  x <> TAB -> tl (fieldsOf (x :: rest)) = tl (fieldsOf rest).
Proof. intro H. now rewrite (fieldsOf_other _ _ H). Qed.

Lemma glue_fieldsOf_cons (current : jsstring) (piece : jsstring) (x : char)
    (rest : jsstring) (decoded : jsstring) :
  x <> TAB ->
  unescape (x :: hd [] (split TAB rest)) = piece ++ unescape (hd [] (split TAB decoded)) ->
  tl (fieldsOf rest) = tl (fieldsOf decoded) ->
  glue current (fieldsOf (x :: rest)) = glue (current ++ piece) (fieldsOf decoded).
Proof.
  intros Hx Hhd Htl. rewrite (fieldsOf_other _ _ Hx), Hhd, Htl, <- hd_fieldsOf.
  apply glue_push.
Qed.

Lemma parseLoop_fields (n : nat) :
  forall line values current,
    (List.length line <= n)%nat ->
    parseLoop line values current
    = (values ++ removelast (glue current (fieldsOf line)),
       last (glue current (fieldsOf line)) []).
Proof.
  induction n as [|n IH]; intros line values current Hlen.
  - destruct line; [|simpl in Hlen; lia].
    simpl. unfold glue. simpl. now rewrite !app_nil_r.
  - destruct line as [|c rest].
    { simpl. unfold glue. simpl. now rewrite !app_nil_r. }
    simpl in Hlen.
    destruct (N.eq_dec c TAB) as [->|Htab].
    { rewrite parseLoop_tab, IH by lia. rewrite fieldsOf_tab.
      rewrite (removelast_glue _ _ _ _ (fieldsOf_nonempty rest)).
      rewrite (last_glue _ _ _ (fieldsOf_nonempty rest)).
      now rewrite app_nil_r. }
    destruct (N.eq_dec c BACKSLASH) as [->|Hbs].
    + destruct rest as [|next rest'].
      { rewrite parseLoop_last. unfold glue. simpl. now rewrite !app_nil_r. }
      simpl in Hlen.
      destruct (escapable next) eqn:Hesc.
      * assert (Hnt : next <> TAB)
          by (apply escapable_cases in Hesc as [->|[->|[->| ->]]]; discriminate).
        assert (Hhd := hd_split_other next rest' Hnt).
        apply escapable_cases in Hesc as [->|[->|[->| ->]]].
        -- rewrite parseLoop_N, IH by lia.
           now rewrite (glue_fieldsOf_cons current (lit "\N") BACKSLASH _ rest')
             by first [easy | now rewrite Hhd | now apply tl_fieldsOf_other].
        -- rewrite parseLoop_t, IH by lia.
           now rewrite (glue_fieldsOf_cons current [TAB] BACKSLASH _ rest')
             by first [easy | now rewrite Hhd | now apply tl_fieldsOf_other].
        -- rewrite parseLoop_n, IH by lia.
           now rewrite (glue_fieldsOf_cons current [LF] BACKSLASH _ rest')
             by first [easy | now rewrite Hhd | now apply tl_fieldsOf_other].
        -- rewrite parseLoop_backslash, IH by lia.
           now rewrite (glue_fieldsOf_cons current [BACKSLASH] BACKSLASH _ rest')
             by first [easy | now rewrite Hhd | now apply tl_fieldsOf_other].
      * rewrite (parseLoop_other _ _ _ _ Hesc), IH by (simpl; lia).
        rewrite (glue_fieldsOf_cons current [BACKSLASH] BACKSLASH _ (next :: rest'));
          try easy.
        destruct (N.eq_dec next TAB) as [->|Hnt].
        -- now rewrite split_sep.
        -- rewrite (hd_split_other _ _ Hnt).
           now rewrite (unescape_other _ _ Hesc).
    + rewrite (parseLoop_plain _ _ _ _ Htab Hbs), IH by lia.
      rewrite (glue_fieldsOf_cons current [c] c _ rest); try easy.
      now rewrite (unescape_plain _ _ Hbs).
Qed.

Lemma parseCopyLine_tokenize (line : jsstring) : parseCopyLine line = tokenize line.
Proof.
  unfold parseCopyLine, tokenize, dropEmptyLast.
  rewrite (parseLoop_fields (List.length line)) by lia.
  rewrite (glue_nil _ (fieldsOf_nonempty line)). simpl.
  destruct (last (fieldsOf line) []) eqn:Hlast; simpl; [reflexivity|].
  rewrite <- Hlast. symmetry.
  apply app_removelast_last, fieldsOf_nonempty.
Qed.

(** C2. The tokenizer splits the row on its tab characters and decodes the
    backslash escapes inside each field ([\N] kept, [\t] a tab that does not
    delimit, [\n] a newline, [\\] one backslash, any other backslash kept with
    the next character read on its own); what is accumulated at the end of the
    line is a field when it is not empty.  The row of the specification gives
    its four fields. *)
Theorem C2_tokenizer_fields :
  (forall line, parseCopyLine line = tokenize line) /\
  (forall rest, unescape (BACKSLASH :: 78 :: rest) = lit "\N" ++ unescape rest) /\
  (forall rest, unescape (BACKSLASH :: 116 :: rest) = TAB :: unescape rest) /\
  (forall rest, unescape (BACKSLASH :: 110 :: rest) = LF :: unescape rest) /\
  (forall rest, unescape (BACKSLASH :: BACKSLASH :: rest) = BACKSLASH :: unescape rest) /\
  parseCopyLine (lit "a\tb" ++ [TAB] ++ lit "c") = [lit "a" ++ [TAB] ++ lit "b"; lit "c"] /\
  parseCopyLine (lit "a\xb\") = [lit "a\xb\"] /\
  parseCopyLine (lit "1" ++ [TAB] ++ lit "João Silva" ++ [TAB] ++ lit "\N" ++ [TAB]
                 ++ lit "2025-06-09 16:02:21.497")
  = [lit "1"; lit "João Silva"; lit "\N"; lit "2025-06-09 16:02:21.497"].
Proof.
  split; [exact parseCopyLine_tokenize|].
  repeat split; vm_compute; reflexivity.
Qed.

(** ** Rows that end at a delimiter *)

Lemma split_app_sep (c : char) (pre post : jsstring) :
  split c (pre ++ c :: post) = split c pre ++ split c post.
Proof.
  induction pre as [|x pre IH].
  - cbn [app]. now rewrite split_sep.
  - cbn [app split]. rewrite IH. destruct (x =? c); [reflexivity|].
    pose proof (split_nonempty c pre). now destruct (split c pre).
Qed.

Lemma split_snoc_other (c x : char) (s : jsstring) :
  x <> c ->
  split c (s ++ [x]) = removelast (split c s) ++ [last (split c s) [] ++ [x]].
Proof.
  intro Hx. induction s as [|y s IH].
  - simpl. apply N.eqb_neq in Hx. now rewrite Hx.
  - cbn [app split]. rewrite IH.
    pose proof (split_nonempty c s) as Hne.
    destruct (y =? c).
    + destruct (split c s) as [|f fs]; [easy|]. reflexivity.
    + destruct (split c s) as [|f fs]; [easy|].
      destruct fs; reflexivity.
Qed.

Lemma length_split (row : jsstring) :
  List.length (split TAB row) = S (countTabs row).
Proof.
  unfold countTabs. induction row as [|x row IH]; [reflexivity|].
  cbn [split filter]. rewrite (N.eqb_sym TAB x).
  destruct (x =? TAB); simpl; [now rewrite IH|].
  rewrite <- IH. pose proof (split_nonempty TAB row). now destruct (split TAB row).
Qed.

Lemma unescape_nil (field : jsstring) : unescape field = [] -> field = [].
Proof.
  destruct field as [|c rest]; [reflexivity|]. cbn [unescape].
  destruct (c =? BACKSLASH); [|discriminate].
  destruct rest as [|next rest']; [discriminate|].
  repeat match goal with |- context [if ?b then _ else _] => destruct b end;
    discriminate.
Qed.

Lemma last_split_nil (row : jsstring) :
  last (split TAB row) [] = [] <-> endsAtDelimiter row = true.
Proof.
  unfold endsAtDelimiter.
  destruct row as [|x row] using rev_ind; [easy|].
  rewrite rev_app_distr. simpl. destruct (N.eq_dec x TAB) as [->|Hx].
  - rewrite split_app_sep. cbn [split]. rewrite last_last. easy.
  - rewrite (split_snoc_other _ _ _ Hx), last_last.
    apply N.eqb_neq in Hx. rewrite Hx. split; [|discriminate].
    now destruct (last (split TAB row) []).
Qed.

Lemma last_fieldsOf (row : jsstring) :
  last (fieldsOf row) [] = unescape (last (split TAB row) []).
Proof.
  unfold fieldsOf. pose proof (split_nonempty TAB row) as Hne.
  induction (split TAB row) as [|f fs IH]; [easy|].
  destruct fs as [|g fs]; [reflexivity|].
  change (last (map unescape (g :: fs)) [] = unescape (last (g :: fs) [])).
  now apply IH.
Qed.

Lemma dropEmptyLast_app (front fields : list jsstring) :
  fields <> [] -> dropEmptyLast (front ++ fields) = front ++ dropEmptyLast fields.
Proof.
  intro H. unfold dropEmptyLast.
  assert (Hlast : last (front ++ fields) [] = last fields []).
  { induction front as [|f front IH]; [reflexivity|].
    simpl. rewrite IH. destruct (front ++ fields) eqn:E; [|reflexivity].
    apply app_eq_nil in E as [_ E]. contradiction. }
  rewrite Hlast. destruct (last fields []); [|reflexivity].
  now apply removelast_app.
Qed.

Lemma fieldsOf_app_tab (pre post : jsstring) :
  fieldsOf (pre ++ TAB :: post) = fieldsOf pre ++ fieldsOf post.
Proof. unfold fieldsOf. now rewrite split_app_sep, map_app. Qed.

Lemma length_tokenize (row : jsstring) :
  List.length (tokenize row)
  = (countTabs row + if endsAtDelimiter row then 0 else 1)%nat.
Proof.
  unfold tokenize, dropEmptyLast.
  assert (Hlen : List.length (fieldsOf row) = S (countTabs row))
    by (unfold fieldsOf; now rewrite length_map, length_split).
  destruct (last (fieldsOf row) []) eqn:Hlast.
  - rewrite last_fieldsOf in Hlast. apply unescape_nil, last_split_nil in Hlast.
    rewrite Hlast.
    destruct (fieldsOf row) using rev_ind; [discriminate|].
    rewrite removelast_last. rewrite length_app in Hlen. simpl in Hlen. lia.
  - destruct (endsAtDelimiter row) eqn:He; [|lia].
    apply last_split_nil in He. rewrite last_fieldsOf, He in Hlast. discriminate.
Qed.

(** C6. When a row ends at a delimiter the empty field after it is dropped:
    the fields of [line] followed by a tab are those of [line], one fewer
    than the pieces the tabs delimit.  What is accumulated at the end is a
    field only when it is not empty, while every tab elsewhere closes a
    field, empty or not. *)
Theorem C6_trailing_empty_field_dropped :
  (forall line, parseCopyLine (line ++ [TAB]) = fieldsOf line) /\
  (forall line, fieldsOf (line ++ [TAB]) = fieldsOf line ++ [[]]) /\
  (forall pre post,
      parseCopyLine (pre ++ TAB :: post) = fieldsOf pre ++ parseCopyLine post) /\
  (forall line,
      List.length (parseCopyLine line)
      = (countTabs line + if endsAtDelimiter line then 0 else 1)%nat) /\
  parseCopyLine (lit "a" ++ [TAB]) = [lit "a"] /\
  parseCopyLine (lit "a" ++ [TAB] ++ lit "b") = [lit "a"; lit "b"] /\
  parseCopyLine (lit "a" ++ [TAB; TAB] ++ lit "b") = [lit "a"; []; lit "b"] /\
  parseCopyLine ([TAB] ++ lit "b" ++ [TAB; TAB]) = [[]; lit "b"; []].
Proof.
  assert (Happ : forall pre post,
             parseCopyLine (pre ++ TAB :: post) = fieldsOf pre ++ parseCopyLine post).
  { intros pre post. rewrite !parseCopyLine_tokenize. unfold tokenize.
    rewrite fieldsOf_app_tab. apply dropEmptyLast_app, fieldsOf_nonempty. }
  split; [|split; [|split; [exact Happ|split]]].
  - intro line. rewrite Happ. change (parseCopyLine []) with (@nil jsstring).
    apply app_nil_r.
  - intro line. now rewrite fieldsOf_app_tab.
  - intro line. rewrite parseCopyLine_tokenize. apply length_tokenize.
  - repeat split; vm_compute; reflexivity.
Qed.

(** ** Sequence adjustment *)

Lemma includes_tail (s p : jsstring) (x : char) :
  includes s (x :: p) = true -> includes s p = true.
Proof.
  induction s as [|y s IH]; simpl; [discriminate|].
  rewrite !orb_true_iff, andb_true_iff. intros [[_ H]|H].
  - right. destruct s; simpl in *; rewrite H; reflexivity.
  - right. now apply IH.
Qed.

Lemma isIdColumn_includes (col : jsstring) :
  isIdColumn col = includes (toLowerCase col) (lit "id").
Proof.
  unfold isIdColumn. destruct (includes (toLowerCase col) (lit "id")) eqn:H;
    [reflexivity|]. simpl.
  destruct (includes (toLowerCase col) (lit "_id")) eqn:H'; [|reflexivity].
  change (lit "_id") with (95 :: lit "id") in H'.
  apply includes_tail in H'. congruence.
Qed.

Lemma lowerUnit_cases (c : char) :
  (65 <= c <= 90 /\ lowerUnit c = [c + 32]) \/
  (c = 304 /\ lowerUnit c = [105; 775]) \/
  (c = 8490 /\ lowerUnit c = [107]) \/
  (~ 65 <= c <= 90 /\ c <> 304 /\ c <> 8490 /\ lowerUnit c = [c]).
Proof.
  unfold lowerUnit.
  destruct (N.leb_spec 65 c), (N.leb_spec c 90); simpl;
    try (left; split; [lia | reflexivity]);
    destruct (N.eqb_spec c 304); try (right; left; now split);
    destruct (N.eqb_spec c 8490); try (right; right; left; now split);
    right; right; right; repeat split; try easy; lia.
Qed.

Lemma lower_starts_d (rest : jsstring) :
  startsWith (toLowerCase rest) [100]
  = match rest with
    | b :: _ => (b =? 68) || (b =? 100)
    | [] => false
    end.
Proof.
  destruct rest as [|b rest]; [reflexivity|].
  unfold toLowerCase. cbn [flat_map].
  destruct (lowerUnit_cases b) as [[Hb ->]|[[-> ->]|[[-> ->]|(Hb & _ & _ & ->)]]];
    try reflexivity; cbn [app startsWith]; rewrite startsWith_nil, andb_true_r.
  - destruct (N.eqb_spec (b + 32) 100), (N.eqb_spec b 68), (N.eqb_spec b 100);
      try reflexivity; lia.
  - destruct (N.eqb_spec b 68), (N.eqb_spec b 100); try reflexivity; lia.
Qed.

Lemma includes_id_lower (name : jsstring) :
  includes (toLowerCase name) (lit "id") = containsIdCI name.
Proof.
  change (lit "id") with [105; 100].
  induction name as [|a rest IH]; [reflexivity|].
  cbn [containsIdCI]. rewrite <- IH, <- lower_starts_d.
  unfold toLowerCase. cbn [flat_map]. fold (toLowerCase rest).
  destruct (lowerUnit_cases a) as [[Ha ->]|[[-> ->]|[[-> ->]|(Ha & _ & _ & ->)]]];
    try reflexivity; cbn [app includes startsWith].
  - f_equal. f_equal.
    destruct (N.eqb_spec (a + 32) 105), (N.eqb_spec a 73), (N.eqb_spec a 105);
      try reflexivity; lia.
  - f_equal. f_equal.
    destruct (N.eqb_spec a 73), (N.eqb_spec a 105); try reflexivity; lia.
Qed.

Lemma isIdColumn_containsIdCI (col : jsstring) : isIdColumn col = containsIdCI col.
Proof. now rewrite isIdColumn_includes, includes_id_lower. Qed.

Lemma sequenceBlocksOf_idColumns (b : copySection) :
  sequenceBlocksOf b = flat_map (sequenceBlock (table b)) (idColumnsOf b).
Proof.
  unfold sequenceBlocksOf, idColumnsOf. f_equal.
  apply filter_ext, isIdColumn_containsIdCI.
Qed.

Lemma addSequenceAdjustment_blocks (copies : list copySection) (script : list jsstring) :
  addSequenceAdjustment copies script
  = script ++ [lit "-- Ajustar sequences das chaves primárias"]
    ++ flat_map (fun b => flat_map (sequenceBlock (table b)) (idColumnsOf b)) copies.
Proof.
  unfold addSequenceAdjustment. rewrite app_assoc.
  generalize (script ++ [lit "-- Ajustar sequences das chaves primárias"]).
  induction copies as [|b copies IH]; intro acc; simpl.
  - now rewrite app_nil_r.
  - now rewrite IH, sequenceBlocksOf_idColumns, app_assoc.
Qed.

Lemma countSequenceBlocks_block (tableName idCol : jsstring) (rest : list jsstring) :
  countSequenceBlocks (sequenceBlock tableName idCol ++ rest)
  = S (countSequenceBlocks rest).
Proof. reflexivity. Qed.

Lemma countSequenceBlocks_blocks (tableName : jsstring) (cols : list jsstring)
    (rest : list jsstring) :
  countSequenceBlocks (flat_map (sequenceBlock tableName) cols ++ rest)
  = (List.length cols + countSequenceBlocks rest)%nat.
Proof.
  induction cols as [|c cols IH]; [reflexivity|].
  cbn [flat_map]. rewrite <- app_assoc, countSequenceBlocks_block, IH.
  reflexivity.
Qed.

Lemma countSequenceBlocks_all (copies : list copySection) :
  countSequenceBlocks
    (flat_map (fun b => flat_map (sequenceBlock (table b)) (idColumnsOf b)) copies)
  = List.length (flat_map idColumnsOf copies).
Proof.
  induction copies as [|b copies IH]; [reflexivity|].
  cbn [flat_map]. rewrite countSequenceBlocks_blocks, IH, length_app. reflexivity.
Qed.

(** C3, as the program has it.  The sequence-adjustment section holds one
    block for every declared column whose name contains [id] in any case, in
    the order of the tables and of their columns, and nothing for the other
    columns.  On table [public.media] the column [videoId] gets one block,
    which names [public.media] and [videoId]; so does the column
    [invalidation]; and so does the column [valid], whose last two letters
    are [id]. *)
Theorem C3_sequence_blocks_by_substring :
  (forall copies script,
      addSequenceAdjustment copies script
      = script ++ [lit "-- Ajustar sequences das chaves primárias"]
        ++ flat_map (fun b => flat_map (sequenceBlock (table b)) (idColumnsOf b))
             copies) /\
  (forall copies,
      countSequenceBlocks (addSequenceAdjustment copies [])
      = List.length (flat_map idColumnsOf copies)) /\
  (forall col, isIdColumn col = containsIdCI col) /\
  (forall col,
      addSequenceAdjustment [mkCopy (lit "public.media") col []] []
      = lit "-- Ajustar sequences das chaves primárias"
        :: flat_map (sequenceBlock (lit "public.media"))
             (filter containsIdCI (columnListOf col))) /\
  idColumnsOf (mkCopy (lit "public.media") (lit "videoId") []) = [lit "videoId"] /\
  idColumnsOf (mkCopy (lit "public.media") (lit "invalidation") [])
  = [lit "invalidation"] /\
  idColumnsOf (mkCopy (lit "public.media") (lit "valid") []) = [lit "valid"] /\
  idColumnsOf (mkCopy (lit "public.media") (lit "name, videoId, title") [])
  = [lit "videoId"] /\
  In (lit "        seq_name := pg_get_serial_sequence('public.media', 'videoId');")
     (sequenceBlock (lit "public.media") (lit "videoId")).
Proof.
  split; [exact addSequenceAdjustment_blocks|].
  split.
  { intro copies. rewrite addSequenceAdjustment_blocks. cbn [app].
    cbn [countSequenceBlocks]. rewrite countSequenceBlocks_all. reflexivity. }
  split; [exact isIdColumn_containsIdCI|].
  split.
  { intro col. rewrite addSequenceAdjustment_blocks. cbn [app flat_map].
    now rewrite app_nil_r. }
  repeat split; try (vm_compute; reflexivity).
  vm_compute. tauto.
Qed.

(** C3, as the specification states it, fails: it says that the column [valid]
    of [public.media] gets no sequence-adjustment block, and it gets one. *)
Lemma C3_valid_counterexample :
  ~ (countSequenceBlocks
       (addSequenceAdjustment [mkCopy (lit "public.media") (lit "valid") []] [])
     = 0%nat).
Proof. vm_compute. discriminate. Qed.

(** ** The header pattern *)

Section CaptureFacts.
Context {R : Type}.
Implicit Types (k : @cont R) (s : jsstring) (p : char -> bool) (r : R).

Lemma cls_some p s k r :
  cls p s k = Some r <-> exists c s', s = c :: s' /\ p c = true /\ k s' = Some r.
Proof.
  destruct s as [|c s']; simpl.
  - split; [discriminate | intros (c & s' & H & _); discriminate].
  - destruct (p c) eqn:Hp.
    + split; [intro H; now exists c, s' |].
      intros (c0 & s0 & H & _ & Hk). now injection H as -> ->.
    + split; [discriminate |].
      intros (c0 & s0 & H & Hp0 & _). injection H as -> ->. congruence.
Qed.

Lemma str_some (l : jsstring) s k r :
  str l s k = Some r <-> exists rest, s = l ++ rest /\ k rest = Some r.
Proof.
  revert s; induction l as [|c l IH]; intro s; simpl.
  - unfold empty. split; [intro H; now exists s | now intros (rest & -> & H)].
  - unfold seq. rewrite cls_some. split.
    + intros (x & s' & -> & Hx & H). apply N.eqb_eq in Hx. subst x.
      apply IH in H as (rest & -> & H). now exists rest.
    + intros (rest & -> & H). exists c, (l ++ rest).
      rewrite N.eqb_refl. repeat split. apply IH. now exists rest.
Qed.

Lemma star_some p s k r :
  star p s k = Some r ->
  exists pre rest, s = pre ++ rest /\ forallb p pre = true /\ k rest = Some r.
Proof.
  induction s as [|c s IH]; simpl.
  - intro H. now exists [], [].
  - destruct (p c) eqn:Hp; [|intro H; now exists [], (c :: s)].
    destruct (star p s k) as [r'|] eqn:Hs; simpl.
    + intro H. injection H as ->.
      destruct (IH eq_refl) as (pre & rest & -> & Hpre & Hk).
      exists (c :: pre), rest. simpl. now rewrite Hp.
    + intro H. now exists [], (c :: s).
Qed.

(** The greedy star takes the longest run when what follows accepts it. *)
Lemma star_longest p (pre rest : jsstring) k r :
  forallb p pre = true ->
  k rest = Some r ->
  star p (pre ++ rest) k = Some r \/ exists c rest', rest = c :: rest' /\ p c = true.
Proof.
  intros Hpre Hk. induction pre as [|c pre IH]; simpl in *.
  - destruct rest as [|c rest']; simpl; [now left|].
    destruct (p c) eqn:Hp; [right; now exists c, rest' | now left].
  - apply andb_true_iff in Hpre as [Hc Hpre]. rewrite Hc.
    destruct (IH Hpre) as [->|H]; [now left | now right].
Qed.

Lemma plus_some p s k r :
  plus p s k = Some r ->
  exists pre rest,
    s = pre ++ rest /\ pre <> [] /\ forallb p pre = true /\ k rest = Some r.
Proof.
  unfold plus. rewrite cls_some. intros (c & s' & -> & Hc & H).
  apply star_some in H as (pre & rest & -> & Hpre & Hk).
  exists (c :: pre), rest. simpl. now rewrite Hc.
Qed.

Lemma plus_longest p (pre rest : jsstring) k r :
  pre <> [] ->
  forallb p pre = true ->
  match rest with [] => True | c :: _ => p c = false end ->
  k rest = Some r ->
  plus p (pre ++ rest) k = Some r.
Proof.
  intros Hne Hpre Hrest Hk. destruct pre as [|c pre]; [easy|].
  simpl in Hpre. apply andb_true_iff in Hpre as [Hc Hpre].
  unfold plus. apply cls_some. exists c, (pre ++ rest). repeat split; try easy.
  destruct (star_longest p pre rest k r Hpre Hk) as [H|(x & rest' & -> & Hx)];
    [exact H | congruence].
Qed.

Lemma opt_chr_atEnd (c : char) s r r' :
  opt (cls (chr c)) s (atEnd r) = Some r' <-> (s = [] \/ s = [c]) /\ r' = r.
Proof.
  unfold opt, cls, chr, atEnd, orElse.
  destruct s as [|x [|y s]].
  - split; [intro H; injection H as <-; now split; [left|] | now intros [_ ->]].
  - destruct (N.eqb_spec c x) as [<-|Hx].
    + split; [intro H; injection H as <-; now split; [right|] | now intros [_ ->]].
    + split; [discriminate | intros [[H|H] _]; [discriminate | congruence]].
  - destruct (c =? x); split; try discriminate; intros [[H|H] _]; discriminate.
Qed.

Lemma consumed_app (a b : jsstring) : consumed (a ++ b) b = a.
Proof.
  unfold consumed. rewrite length_app, Nat.add_sub.
  now rewrite firstn_app, Nat.sub_diag, firstn_all, app_nil_r.
Qed.
End CaptureFacts.

Lemma forallb_notChr (c : char) (s : jsstring) :
  forallb (notChr c) s = true <-> ~ In c s.
Proof.
  unfold notChr. induction s as [|x s IH]; simpl; [easy|].
  rewrite andb_true_iff, IH, negb_true_iff, N.eqb_neq. intuition.
Qed.

(** What [copyMatch] captures is what the shape of a header says. *)
Lemma copyMatch_shape (line t c : jsstring) :
  copyMatch line = Some (t, c) <-> HeaderShape line t c.
Proof.
  unfold copyMatch, HeaderShape. rewrite str_some. split.
  - intros (s1 & -> & H). unfold seq in H.
    apply plus_some in H as (schema & r1 & Hs1 & Hschema & Hsq & H).
    apply cls_some in H as (q1 & r2 & -> & Hq1 & H). apply N.eqb_eq in Hq1. subst q1.
    apply plus_some in H as (name & r3 & -> & Hname & Hnq & H).
    apply cls_some in H as (q2 & s2 & -> & Hq2 & H). apply N.eqb_eq in Hq2. subst q2.
    apply str_some in H as (s3 & Hs2 & H).
    apply plus_some in H as (cols & s4 & Hs3 & Hcols & Hcp & H).
    apply str_some in H as (r5 & Hs4 & H).
    assert (Ht : consumed s1 s2 = schema ++ [DQUOTE] ++ name ++ [DQUOTE]).
    { rewrite Hs1. cbn [app].
      replace (schema ++ DQUOTE :: name ++ DQUOTE :: s2)
        with ((schema ++ DQUOTE :: name ++ [DQUOTE]) ++ s2)
        by (rewrite <- !app_assoc; cbn [app]; now rewrite <- app_assoc).
      apply consumed_app. }
    assert (Hc : consumed s3 s4 = cols) by (rewrite Hs3; apply consumed_app).
    rewrite Ht, Hc in H.
    apply opt_chr_atEnd in H as [Hsemi Htc].
    injection Htc as -> ->.
    exists schema, name, r5. subst s1 s2 s3 s4.
    apply forallb_notChr in Hsq, Hnq, Hcp.
    repeat split; assumption.
  - intros (schema & name & semi & -> & -> & Hschema & Hsq & Hname & Hnq & Hc & Hcp & Hsemi).
    apply forallb_notChr in Hsq, Hnq, Hcp.
    exists (schema ++ [DQUOTE] ++ name ++ [DQUOTE]
            ++ lit " (" ++ c ++ lit ") FROM stdin" ++ semi).
    split; [reflexivity|]. unfold seq.
    apply plus_longest; try assumption.
    { cbn [app]. unfold notChr. now rewrite N.eqb_refl. }
    apply cls_some. eexists _, _. split; [reflexivity|].
    split; [apply N.eqb_refl|].
    apply plus_longest; try assumption.
    { cbn [app]. unfold notChr. now rewrite N.eqb_refl. }
    apply cls_some. eexists _, _. split; [reflexivity|].
    split; [apply N.eqb_refl|].
    apply str_some. eexists. split; [reflexivity|].
    apply plus_longest; try assumption.
    { reflexivity. }
    apply str_some. exists semi. split; [reflexivity|].
    assert (Ht : consumed (schema ++ [DQUOTE] ++ name ++ [DQUOTE]
                           ++ lit " (" ++ c ++ lit ") FROM stdin" ++ semi)
                   (lit " (" ++ c ++ lit ") FROM stdin" ++ semi)
                 = schema ++ [DQUOTE] ++ name ++ [DQUOTE]).
    { replace (schema ++ [DQUOTE] ++ name ++ [DQUOTE]
               ++ lit " (" ++ c ++ lit ") FROM stdin" ++ semi)
        with ((schema ++ [DQUOTE] ++ name ++ [DQUOTE])
              ++ lit " (" ++ c ++ lit ") FROM stdin" ++ semi)
        by (now rewrite <- !app_assoc).
      apply consumed_app. }
    rewrite Ht, consumed_app. apply opt_chr_atEnd. now split.
Qed.

(** ** The block extractor as a two-state machine *)

Lemma scanLines_app (st : scanState) (a b : list jsstring) :
  scanLines st (a ++ b) = scanLines (scanLines st a) b.
Proof. apply fold_left_app. Qed.

Lemma scanLine_header (st : scanState) (raw t c : jsstring) :
  copyMatch (stripCR raw) = Some (t, c) ->
  scanLine st raw = mkScan (copies st) (Some (mkOpen t c [])) true.
Proof. intro H. unfold scanLine. now rewrite H. Qed.

Lemma isHeader_match (raw : jsstring) :
  isHeader raw = true -> exists t c, copyMatch (stripCR raw) = Some (t, c).
Proof.
  unfold isHeader. destruct (copyMatch (stripCR raw)) as [[t c]|]; [|discriminate].
  intros _. now exists t, c.
Qed.

(** Only the terminator appends to the block sequence. *)
Lemma scanLine_copies (st : scanState) (raw : jsstring) :
  isTerminator raw = false -> copies (scanLine st raw) = copies st.
Proof.
  unfold isTerminator, scanLine. intro H. rewrite H.
  destruct (copyMatch (stripCR raw)) as [[t c]|]; [reflexivity|].
  destruct (currentCopy st); [|reflexivity]. simpl.
  now destruct (inCopyData st).
Qed.

Lemma scanLines_copies (st : scanState) (lines : list jsstring) :
  forallb (fun raw => negb (isTerminator raw)) lines = true ->
  copies (scanLines st lines) = copies st.
Proof.
  revert st; induction lines as [|raw lines IH]; intros st H; [reflexivity|].
  simpl in H. apply andb_true_iff in H as [H1 H2].
  apply negb_true_iff in H1.
  change (copies (scanLines (scanLine st raw) lines) = copies st).
  rewrite (IH _ H2). now apply scanLine_copies.
Qed.

(** A header that no terminator follows leaves the block sequence as it was
    before the header. *)
Lemma scanLines_unterminated (st : scanState) (pre post : list jsstring)
    (header : jsstring) :
  isHeader header = true ->
  forallb (fun raw => negb (isTerminator raw)) post = true ->
  copies (scanLines st (pre ++ header :: post)) = copies (scanLines st pre).
Proof.
  intros Hh Hpost. apply isHeader_match in Hh as (t & c & Hh).
  rewrite scanLines_app.
  change (scanLines (scanLines st pre) (header :: post))
    with (scanLines (scanLine (scanLines st pre) header) post).
  rewrite (scanLines_copies _ _ Hpost), (scanLine_header _ _ _ _ Hh). reflexivity.
Qed.

(** ** The script assembler, table by table *)

Lemma dropWhile_nil (p : char -> bool) (s : jsstring) :
  falsy (dropWhile p s) = forallb p s.
Proof.
  induction s as [|c s IH]; [reflexivity|]. simpl.
  now destruct (p c).
Qed.

Lemma forallb_dropWhile (p : char -> bool) (s : jsstring) :
  forallb p (dropWhile p s) = forallb p s.
Proof.
  induction s as [|c s IH]; [reflexivity|]. simpl.
  destruct (p c) eqn:Hc; [exact IH|]. simpl. now rewrite Hc.
Qed.

Lemma forallb_rev_eq (p : char -> bool) (s : jsstring) :
  forallb p (rev s) = forallb p s.
Proof.
  apply eq_true_iff_eq. rewrite !forallb_forall.
  split; intros H c Hc; apply H; [now apply in_rev in Hc | now apply in_rev].
Qed.

Lemma falsy_rev (s : jsstring) : falsy (rev s) = falsy s.
Proof.
  destruct s as [|c s]; [reflexivity|]. simpl.
  now destruct (rev s).
Qed.

(** [!line.trim()] holds of the lines made of white space only. *)
Lemma falsy_trim (line : jsstring) : falsy (trim line) = isBlank line.
Proof.
  unfold trim, isBlank.
  now rewrite falsy_rev, dropWhile_nil, forallb_rev_eq, forallb_dropWhile.
Qed.

Section AssemblerFacts.
Variable parseMethod : jsstring -> completion (list jsstring).
Variable formatMethod : jsstring -> completion jsstring.

Section OneTable.
Variable tableName : jsstring.
Variable columnList : list jsstring.

Lemma fold_rowStep (rows : list jsstring) :
  forall script n errors,
    fold_left (rowStep parseMethod formatMethod tableName columnList) rows
      (script, n, errors)
    = (script ++ insertsOf parseMethod formatMethod tableName columnList rows,
       (n + List.length
              (insertsOf parseMethod formatMethod tableName columnList rows))%nat,
       errors ++ errorEntries parseMethod formatMethod tableName columnList n rows).
Proof.
  induction rows as [|line rows IH]; intros script n errors.
  - simpl. now rewrite !app_nil_r, Nat.add_0_r.
  - cbn [fold_left]. unfold rowStep at 2.
    rewrite falsy_trim. unfold insertsOf.
    cbn [flat_map errorEntries].
    destruct (isBlank line).
    + apply IH.
    + destruct (tryRow parseMethod formatMethod tableName columnList line)
        as [statement|message].
      * rewrite IH. unfold insertsOf.
        rewrite <- app_assoc. cbn [app List.length].
        now rewrite Nat.add_succ_r.
      * rewrite IH. unfold insertsOf.
        now rewrite <- app_assoc.
Qed.

Lemma length_errorEntries (rows : list jsstring) :
  forall n,
    List.length (errorEntries parseMethod formatMethod tableName columnList n rows)
    = List.length (failuresOf parseMethod formatMethod tableName columnList rows).
Proof.
  unfold failuresOf.
  induction rows as [|line rows IH]; intro n; [reflexivity|].
  cbn [errorEntries flat_map]. destruct (isBlank line); [apply IH|].
  destruct (tryRow parseMethod formatMethod tableName columnList line);
    simpl; now rewrite IH.
Qed.

End OneTable.

Lemma tableStep_section (script errors : list jsstring) (b : copySection) :
  tableStep parseMethod formatMethod (script, errors) b
  = (script ++ tableSection parseMethod formatMethod b,
     errors ++ tableErrors parseMethod formatMethod b).
Proof.
  unfold tableStep, tableSection, tableErrors, tableInserts, rowsOf.
  rewrite fold_rowStep. cbn [Nat.add].
  destruct (List.length
              (insertsOf parseMethod formatMethod (table b)
                 (columnListOf (columns b)) (split LF (data b)))) eqn:Hn.
  - cbn [Nat.ltb Nat.leb]. now rewrite <- !app_assoc.
  - cbn [Nat.ltb Nat.leb]. now rewrite <- !app_assoc.
Qed.

Lemma fold_tableStep (copies : list copySection) :
  forall script errors,
    fold_left (tableStep parseMethod formatMethod) copies (script, errors)
    = (script ++ flat_map (tableSection parseMethod formatMethod) copies,
       errors ++ flat_map (tableErrors parseMethod formatMethod) copies).
Proof.
  induction copies as [|b copies IH]; intros script errors.
  - simpl. now rewrite !app_nil_r.
  - cbn [fold_left flat_map]. rewrite tableStep_section, IH.
    now rewrite <- !app_assoc.
Qed.

Lemma addTriggerManagement_app (script : list jsstring) (enable : bool) :
  addTriggerManagement script enable = script ++ addTriggerManagement [] enable.
Proof. reflexivity. Qed.

Lemma addSequenceAdjustment_app (copies : list copySection) (script : list jsstring) :
  addSequenceAdjustment copies script = script ++ addSequenceAdjustment copies [].
Proof. now rewrite !addSequenceAdjustment_blocks. Qed.

Lemma addWarnings_lines (script errors : list jsstring) :
  addWarnings script errors
  = script ++ match errors with [] => [] | _ :: _ => warningLines errors end.
Proof. destruct errors; [now rewrite app_nil_r | reflexivity]. Qed.

(** The whole script: its body, then the warnings, and the error list the
    run ends with. *)
Lemma scriptLinesWith_structure (now : jsstring) (copies : list copySection)
    (errors : list jsstring) :
  scriptLinesWith parseMethod formatMethod now copies errors
  = (addWarnings (scriptBody parseMethod formatMethod now copies)
       (errors ++ flat_map (tableErrors parseMethod formatMethod) copies),
     errors ++ flat_map (tableErrors parseMethod formatMethod) copies).
Proof.
  unfold scriptLinesWith, scriptBody. rewrite fold_tableStep.
  rewrite addSequenceAdjustment_app, (addTriggerManagement_app (_ ++ _) true).
  rewrite (addTriggerManagement_app _ false).
  f_equal. f_equal. now rewrite <- !app_assoc.
Qed.
End AssemblerFacts.

(** ** The methods of the class never throw *)

Lemma mapFormat_real (values : list jsstring) :
  mapFormat formatValueAdvancedM values = Normal (map formatValueAdvanced values).
Proof.
  induction values as [|v values IH]; [reflexivity|]. simpl. now rewrite IH.
Qed.

Lemma tryRow_real (tableName : jsstring) (columnList : list jsstring) (line : jsstring) :
  tryRow parseCopyLineM formatValueAdvancedM tableName columnList line
  = Normal (insertStatement tableName columnList
              (map formatValueAdvanced (parseCopyLine line))).
Proof. unfold tryRow, parseCopyLineM. now rewrite mapFormat_real. Qed.

Lemma errorEntries_real (tableName : jsstring) (columnList : list jsstring)
    (rows : list jsstring) :
  forall n,
    errorEntries parseCopyLineM formatValueAdvancedM tableName columnList n rows = [].
Proof.
  induction rows as [|line rows IH]; intro n; [reflexivity|].
  cbn [errorEntries]. rewrite tryRow_real. now destruct (isBlank line).
Qed.

Lemma tableErrors_real (copies : list copySection) :
  flat_map (tableErrors parseCopyLineM formatValueAdvancedM) copies = [].
Proof.
  induction copies as [|b copies IH]; [reflexivity|].
  cbn [flat_map]. unfold tableErrors at 1. now rewrite errorEntries_real.
Qed.

Lemma scriptLines_real (now : jsstring) (copies : list copySection)
    (errors : list jsstring) :
  scriptLines now copies errors
  = (addWarnings (scriptBody parseCopyLineM formatValueAdvancedM now copies) errors,
     errors).
Proof.
  unfold scriptLines. rewrite scriptLinesWith_structure, tableErrors_real.
  now rewrite app_nil_r.
Qed.

Lemma insertsOf_real (tableName : jsstring) (columnList : list jsstring)
    (rows : list jsstring) (line : jsstring) :
  In line rows -> isBlank line = false ->
  In (insertStatement tableName columnList
        (map formatValueAdvanced (parseCopyLine line)))
     (insertsOf parseCopyLineM formatValueAdvancedM tableName columnList rows).
Proof.
  intros Hin Hblank. unfold insertsOf. apply in_flat_map. exists line.
  split; [exact Hin|]. rewrite Hblank, tryRow_real. now left.
Qed.

(** C8. No check of the number of fields against the number of columns: a row
    that is not blank and has another number of fields than the block has
    columns still gets its [INSERT] statement, made of the whole column list
    and of the values the row has, and the error list is left as it was. *)
Theorem C8_arity_mismatch_still_inserted
    (now : jsstring) (copies : list copySection) (errors : list jsstring)
    (b : copySection) (line : jsstring) :
  In b copies ->
  In line (rowsOf b) ->
  isBlank line = false ->
  List.length (parseCopyLine line) <> List.length (columnListOf (columns b)) ->
  In (insertStatement (table b) (columnListOf (columns b))
        (map formatValueAdvanced (parseCopyLine line)))
     (fst (scriptLines now copies errors))
  /\ snd (scriptLines now copies errors) = errors.
Proof.
  intros Hb Hline Hblank _. rewrite scriptLines_real. split; [|reflexivity].
  cbn [fst]. rewrite addWarnings_lines. apply in_or_app. left.
  unfold scriptBody. do 3 (apply in_or_app; right).
  apply in_or_app. left. apply in_flat_map. exists b. split; [exact Hb|].
  unfold tableSection. apply in_or_app. right. apply in_or_app. left.
  now apply insertsOf_real.
Qed.

Lemma C8_arity_mismatch_witness :
  In (lit "INSERT INTO public." ++ [DQUOTE] ++ lit "media" ++ [DQUOTE]
      ++ lit " (id, name) VALUES (1, 'a', 'b') ON CONFLICT DO NOTHING;")
     (fst (scriptLines (lit "2025-01-27T10:30:00.000Z") [Samples.wideBlock] []))
  /\ snd (scriptLines (lit "2025-01-27T10:30:00.000Z") [Samples.wideBlock] []) = [].
Proof.
  apply (C8_arity_mismatch_still_inserted
           (lit "2025-01-27T10:30:00.000Z") [Samples.wideBlock] []
           Samples.wideBlock Samples.wideRow).
  - left. reflexivity.
  - left. reflexivity.
  - reflexivity.
  - vm_compute. discriminate.
Defined.

(** C9. Apart from the time stamp the script is a function of the dump text:
    the lines of the script are two fixed lines, the line [-- Data: ] with the
    time stamp, and lines that depend on the dump only; the text written is
    these lines joined by newlines, so two runs on one dump differ in the third
    line at most. *)
Theorem C9_output_determined_by_dump (content : jsstring) :
  exists rest errors,
    forall now,
      run now content
      = (join [LF]
           ([lit "-- Script de Inserção de Dados via INSERT INTO";
             lit "-- Gerado automaticamente a partir do dump";
             lit "-- Data: " ++ now]
            ++ rest),
         errors).
Proof.
  exists ([lit "-- Versão: Advanced"; []]
          ++ addTriggerManagement [] false
          ++ [lit "-- Inserir dados"]
          ++ flat_map (tableSection parseCopyLineM formatValueAdvancedM)
               (processDump content)
          ++ addTriggerManagement [] true
          ++ addSequenceAdjustment (processDump content) []),
         [].
  intro now. unfold run, generateInsertScript, generateInsertScriptWith.
  fold (scriptLines now (processDump content) []).
  rewrite scriptLines_real. cbn [addWarnings]. reflexivity.
Qed.



(** C4, as the program has it.  A row whose encoding raises adds exactly one
    entry to the error list and no statement to the script, and the other rows
    that are not blank get their statements, in this table and in the others;
    the assembler returns in every case.  The tokenizer and the classifier of
    the class raise on no row: a row that ends in a backslash keeps it as the
    last character of its last field and is inserted like any other row, with
    no entry recorded. *)
Theorem C4_row_errors_are_local :
  (forall parseMethod formatMethod script errors b,
      tableStep parseMethod formatMethod (script, errors) b
      = (script ++ tableSection parseMethod formatMethod b,
         errors ++ tableErrors parseMethod formatMethod b)
      /\ List.length (tableErrors parseMethod formatMethod b)
         = List.length (failuresOf parseMethod formatMethod (table b)
                          (columnListOf (columns b)) (rowsOf b))) /\
  (forall parseMethod formatMethod now copies errors,
      snd (generateInsertScriptWith parseMethod formatMethod now copies errors)
      = errors ++ flat_map (tableErrors parseMethod formatMethod) copies) /\
  (forall tableName columnList line,
      tryRow parseCopyLineM formatValueAdvancedM tableName columnList line
      = Normal (insertStatement tableName columnList
                  (map formatValueAdvanced (parseCopyLine line)))) /\
  (forall now copies errors, snd (generateInsertScript now copies errors) = errors) /\
  (forall line, parseCopyLine (line ++ [TAB; 97; BACKSLASH])
                = fieldsOf line ++ [[97; BACKSLASH]]) /\
  parseCopyLine (lit "1" ++ [TAB] ++ lit "abc\") = [lit "1"; lit "abc\"] /\
  formatValueAdvanced (lit "abc\") = lit "'abc\'".
Proof.
  split.
  { intros. split; [apply tableStep_section|].
    unfold tableErrors. apply length_errorEntries. }
  split.
  { intros. unfold generateInsertScriptWith.
    now rewrite scriptLinesWith_structure. }
  split; [exact tryRow_real|].
  split.
  { intros now blocks errors. unfold generateInsertScript, generateInsertScriptWith.
    fold (scriptLines now blocks errors). now rewrite scriptLines_real. }
  split.
  { intro line. rewrite !parseCopyLine_tokenize. unfold tokenize.
    change (line ++ [TAB; 97; BACKSLASH]) with (line ++ TAB :: [97; BACKSLASH]).
    rewrite fieldsOf_app_tab.
    rewrite dropEmptyLast_app by apply fieldsOf_nonempty. reflexivity. }
  split; vm_compute; reflexivity.
Qed.

(** C4, as the specification states it, fails on its own example: the row
    [1<TAB>abc\] ends in an unbalanced escape, and the run records no error
    for it and emits its [INSERT] statement. *)
Lemma C4_unbalanced_escape_counterexample :
  ~ (List.length (snd (run (lit "2025-01-27T10:30:00.000Z") Samples.unbalancedDump))
     = 1%nat
     /\ ~ In (lit "INSERT INTO " ++ Samples.mediaTable
              ++ lit " (id, name) VALUES (1, 'abc\') ON CONFLICT DO NOTHING;")
             (split LF
                (fst (run (lit "2025-01-27T10:30:00.000Z") Samples.unbalancedDump)))).
Proof. intros [H _]. vm_compute in H. discriminate. Qed.

(** ** Blocks that are opened and not closed *)

(** C7. A header that no terminator follows before the end of the file opens a
    block that is dropped: the blocks extracted are those of the lines before
    the header, the script is the one these blocks give, and the error list
    stays empty. *)
Theorem C7_open_block_at_eof_discarded
    (now content : jsstring) (pre post : list jsstring) (header : jsstring) :
  split LF content = pre ++ header :: post ->
  isHeader header = true ->
  forallb (fun raw => negb (isTerminator raw)) post = true ->
  processDump content = copies (scanLines (mkScan [] None false) pre)
  /\ run now content
     = generateInsertScript now (copies (scanLines (mkScan [] None false) pre)) []
  /\ snd (run now content) = [].
Proof.
  intros Hsplit Hh Hpost.
  assert (H : processDump content = copies (scanLines (mkScan [] None false) pre)).
  { unfold processDump, processDumpFrom. rewrite Hsplit.
    now apply scanLines_unterminated. }
  split; [exact H|]. unfold run. rewrite H. split; [reflexivity|].
  unfold generateInsertScript, generateInsertScriptWith.
  fold (scriptLines now (copies (scanLines (mkScan [] None false) pre)) []).
  now rewrite scriptLines_real.
Qed.

Lemma C7_open_block_witness :
  processDump Samples.openEndedDump
  = [mkCopy (lit "public." ++ [DQUOTE] ++ lit "users" ++ [DQUOTE]) (lit "id, email")
       (lit "7" ++ [TAB] ++ lit "a@b.c")]
  /\ run (lit "2025-01-27T10:30:00.000Z") Samples.openEndedDump
     = generateInsertScript (lit "2025-01-27T10:30:00.000Z")
         [mkCopy (lit "public." ++ [DQUOTE] ++ lit "users" ++ [DQUOTE])
            (lit "id, email") (lit "7" ++ [TAB] ++ lit "a@b.c")] []
  /\ snd (run (lit "2025-01-27T10:30:00.000Z") Samples.openEndedDump) = [].
Proof.
  apply (C7_open_block_at_eof_discarded
           (lit "2025-01-27T10:30:00.000Z") Samples.openEndedDump
           [Samples.usersHeader; lit "7" ++ [TAB] ++ lit "a@b.c"; lit "\."]
           [lit "1" ++ [TAB] ++ lit "lost"; []]
           Samples.mediaHeader).
  - vm_compute. reflexivity.
  - vm_compute. reflexivity.
  - vm_compute. reflexivity.
Defined.

(** ** Rows of a block are never header lines *)

Lemma split_free (c : char) (s : jsstring) :
  Forall (fun piece => ~ In c piece) (split c s).
Proof.
  induction s as [|x s IH]; simpl.
  - constructor; [easy | constructor].
  - destruct (N.eqb_spec x c) as [->|Hx].
    + constructor; [easy | exact IH].
    + destruct (split c s) as [|f fs]; inversion IH; subst.
      * constructor; [|constructor]. simpl. intros [H|H]; [easy|easy].
      * constructor; [|assumption]. simpl. intros [H|H]; [easy|easy].
Qed.

Lemma split_none (c : char) (s : jsstring) : ~ In c s -> split c s = [s].
Proof.
  induction s as [|x s IH]; intro H; [reflexivity|].
  simpl in *. destruct (N.eqb_spec x c) as [->|Hx]; [tauto|].
  rewrite IH by tauto. reflexivity.
Qed.

Lemma split_join (c : char) (rows : list jsstring) :
  rows <> [] ->
  Forall (fun row => ~ In c row) rows ->
  split c (join [c] rows) = rows.
Proof.
  induction rows as [|x rows IH]; intros Hne Hfree; [easy|].
  inversion Hfree as [|? ? Hx Hrows]; subst.
  destruct rows as [|y rows].
  - simpl. now apply split_none.
  - change (join [c] (x :: y :: rows)) with (x ++ c :: join [c] (y :: rows)).
    rewrite split_app_sep, (split_none _ _ Hx), IH by easy. reflexivity.
Qed.

Lemma stripCR_incl (x : char) (s : jsstring) : In x (stripCR s) -> In x s.
Proof.
  unfold stripCR. destruct (rev s) as [|c r] eqn:E; [easy|].
  destruct (c =? CR); [|easy].
  intro H. apply in_rev in H. apply in_rev. rewrite E. now right.
Qed.

Lemma rows_of_joined (rows : list jsstring) :
  Forall cleanRow rows -> Forall notHeader (split LF (join [LF] rows)).
Proof.
  intro H. destruct rows as [|x rows].
  - simpl. constructor; [reflexivity | constructor].
  - rewrite split_join; [| easy |].
    + eapply Forall_impl; [|exact H]. now intros r [Hr _].
    + eapply Forall_impl; [|exact H]. now intros r [_ Hr].
Qed.

Lemma scanLine_noHeaderRows (st : scanState) (raw : jsstring) :
  ~ In LF raw -> NoHeaderRows st -> NoHeaderRows (scanLine st raw).
Proof.
  intros Hraw [Hcur Hcopies]. unfold scanLine.
  destruct (copyMatch (stripCR raw)) as [[t c]|] eqn:Hm.
  { split; [|exact Hcopies]. simpl. intros cur H. injection H as <-. constructor. }
  destruct (currentCopy st) as [cur|] eqn:Hc; [|now split; [rewrite Hc|]].
  destruct (eqs (stripCR raw) (lit "\.") && inCopyData st).
  { split; [simpl; discriminate|]. simpl. apply Forall_app. split; [exact Hcopies|].
    constructor; [|constructor]. unfold rowsOf. simpl.
    apply rows_of_joined. now apply Hcur. }
  destruct (inCopyData st); [|now split; [rewrite Hc|]].
  split; [|exact Hcopies]. simpl. intros cur' H. injection H as <-. simpl.
  apply Forall_app. split; [now apply Hcur|].
  constructor; [|constructor]. split; [exact Hm|].
  intro H. now apply stripCR_incl in H.
Qed.

Lemma scanLines_noHeaderRows (lines : list jsstring) :
  forall st,
    Forall (fun raw => ~ In LF raw) lines ->
    NoHeaderRows st -> NoHeaderRows (scanLines st lines).
Proof.
  induction lines as [|raw lines IH]; intros st Hfree Hst; [exact Hst|].
  inversion Hfree; subst.
  change (NoHeaderRows (scanLines (scanLine st raw) lines)).
  apply IH; [assumption|]. now apply scanLine_noHeaderRows.
Qed.

Lemma firstn_incl (k : nat) (l : list jsstring) (x : jsstring) :
  In x (firstn k l) -> In x l.
Proof.
  revert l; induction k as [|k IH]; intros [|y l]; simpl; try easy.
  intros [H|H]; [now left | right; now apply IH].
Qed.

Lemma processDump_noHeaderRows (content : jsstring) (k : nat) :
  NoHeaderRows (scanLines (mkScan [] None false) (firstn k (split LF content))).
Proof.
  apply scanLines_noHeaderRows.
  - apply Forall_forall. intros raw Hin. apply firstn_incl in Hin.
    revert raw Hin. apply Forall_forall, split_free.
  - split; [discriminate | constructor].
Qed.

(** C10. A header met while a block is open drops that block: the state after
    the second header is the one the second header alone gives after the
    lines before the first, with the same block sequence and a new open block
    with no rows; whatever follows, the result is that of the dump without the
    first header and its rows.  No header line is ever a row of a block, open
    or closed. *)
Theorem C10_second_header_discards_open_block
    (st : scanState) (pre mid post : list jsstring) (h1 h2 t2 c2 : jsstring) :
  isHeader h1 = true ->
  copyMatch (stripCR h2) = Some (t2, c2) ->
  forallb (fun raw => negb (isTerminator raw)) mid = true ->
  scanLines st (pre ++ h1 :: mid ++ [h2])
  = mkScan (copies (scanLines st pre)) (Some (mkOpen t2 c2 [])) true
  /\ scanLines st (pre ++ h1 :: mid ++ h2 :: post) = scanLines st (pre ++ h2 :: post)
  /\ (forall content k cur,
         currentCopy (scanLines (mkScan [] None false) (firstn k (split LF content)))
         = Some cur ->
         Forall (fun row => copyMatch row = None) (open_data cur))
  /\ (forall content b,
         In b (processDump content) ->
         Forall (fun row => copyMatch row = None) (rowsOf b)).
Proof.
  intros H1 H2 Hmid.
  assert (Hstate : scanLines st (pre ++ h1 :: mid ++ [h2])
                   = mkScan (copies (scanLines st pre)) (Some (mkOpen t2 c2 [])) true).
  { rewrite (app_comm_cons mid [h2] h1), app_assoc, scanLines_app.
    change (scanLines ?s [h2]) with (scanLine s h2).
    rewrite (scanLine_header _ _ _ _ H2).
    now rewrite (scanLines_unterminated _ _ _ _ H1 Hmid). }
  split; [exact Hstate|]. split.
  { replace (h1 :: mid ++ h2 :: post) with ((h1 :: mid ++ [h2]) ++ post)
      by (simpl; now rewrite <- app_assoc).
    rewrite app_assoc, scanLines_app, Hstate.
    change (h2 :: post) with ([h2] ++ post).
    rewrite app_assoc, (scanLines_app _ (pre ++ [h2])), (scanLines_app _ pre).
    change (scanLines ?s [h2]) with (scanLine s h2).
    now rewrite (scanLine_header _ _ _ _ H2). }
  split.
  { intros content k cur Hcur.
    destruct (processDump_noHeaderRows content k) as [Hopen _].
    eapply Forall_impl; [|exact (Hopen _ Hcur)]. now intros r [Hr _]. }
  intros content b Hb.
  pose proof (processDump_noHeaderRows content (List.length (split LF content)))
    as [_ Hclosed].
  rewrite firstn_all in Hclosed.
  revert b Hb. now apply Forall_forall.
Qed.

Lemma C10_second_header_witness :
  scanLines (mkScan [] None false)
    ([Samples.usersHeader; lit "7" ++ [TAB] ++ lit "a@b.c"; lit "\."]
     ++ Samples.mediaHeader :: [lit "1" ++ [TAB] ++ lit "lost"] ++ [Samples.usersHeader])
  = mkScan
      [mkCopy (lit "public." ++ [DQUOTE] ++ lit "users" ++ [DQUOTE]) (lit "id, email")
         (lit "7" ++ [TAB] ++ lit "a@b.c")]
      (Some (mkOpen (lit "public." ++ [DQUOTE] ++ lit "users" ++ [DQUOTE])
               (lit "id, email") []))
      true
  /\ scanLines (mkScan [] None false)
       ([Samples.usersHeader; lit "7" ++ [TAB] ++ lit "a@b.c"; lit "\."]
        ++ Samples.mediaHeader :: [lit "1" ++ [TAB] ++ lit "lost"]
        ++ Samples.usersHeader :: [lit "8" ++ [TAB] ++ lit "d@e.f"; lit "\."])
     = scanLines (mkScan [] None false)
         ([Samples.usersHeader; lit "7" ++ [TAB] ++ lit "a@b.c"; lit "\."]
          ++ Samples.usersHeader :: [lit "8" ++ [TAB] ++ lit "d@e.f"; lit "\."]).
Proof.
  assert (H : isHeader Samples.mediaHeader = true) by (vm_compute; reflexivity).
  assert (H' : copyMatch (stripCR Samples.usersHeader)
               = Some (lit "public." ++ [DQUOTE] ++ lit "users" ++ [DQUOTE],
                       lit "id, email")) by (vm_compute; reflexivity).
  assert (H'' : forallb (fun raw => negb (isTerminator raw))
                  [lit "1" ++ [TAB] ++ lit "lost"] = true) by (vm_compute; reflexivity).
  destruct (C10_second_header_discards_open_block
              (mkScan [] None false)
              [Samples.usersHeader; lit "7" ++ [TAB] ++ lit "a@b.c"; lit "\."]
              [lit "1" ++ [TAB] ++ lit "lost"]
              [lit "8" ++ [TAB] ++ lit "d@e.f"; lit "\."]
              Samples.mediaHeader Samples.usersHeader _ _ H H' H'')
    as (A & B & _).
  split; [exact A | exact B].
Defined.

(** ** The model on sample inputs *)

Example lit_utf8 : lit "João" = [74; 111; 227; 111].
Proof. reflexivity. Qed.

Example copyMatch_quoted_table :
  copyMatch Samples.mediaHeader = Some (Samples.mediaTable, lit "id, name").
Proof. vm_compute. reflexivity. Qed.

(** The header pattern asks for a quoted table name. *)
Example copyMatch_unquoted_table :
  copyMatch (lit "COPY public.media (id, videoId) FROM stdin;") = None.
Proof. vm_compute. reflexivity. Qed.

Example processDump_crlf :
  processDump (join [CR; LF] [Samples.mediaHeader; lit "1" ++ [TAB] ++ lit "x"; lit "\."; []])
  = [mkCopy Samples.mediaTable (lit "id, name") (lit "1" ++ [TAB] ++ lit "x")].
Proof. vm_compute. reflexivity. Qed.

Example unbalanced_row_is_inserted :
  run (lit "2025-01-27T10:30:00.000Z") Samples.unbalancedDump
  = (join [LF]
       (scriptBody parseCopyLineM formatValueAdvancedM (lit "2025-01-27T10:30:00.000Z")
          [mkCopy Samples.mediaTable (lit "id, name")
             (join [LF] [lit "1" ++ [TAB] ++ lit "abc\"; lit "2" ++ [TAB] ++ lit "ok"])]),
     [])
  /\ tableSection parseCopyLineM formatValueAdvancedM
       (mkCopy Samples.mediaTable (lit "id, name")
          (join [LF] [lit "1" ++ [TAB] ++ lit "abc\"; lit "2" ++ [TAB] ++ lit "ok"]))
     = [lit "-- Dados para " ++ Samples.mediaTable;
        lit "INSERT INTO " ++ Samples.mediaTable
        ++ lit " (id, name) VALUES (1, 'abc\') ON CONFLICT DO NOTHING;";
        lit "INSERT INTO " ++ Samples.mediaTable
        ++ lit " (id, name) VALUES (2, 'ok') ON CONFLICT DO NOTHING;";
        lit "-- 2 registros inseridos em " ++ Samples.mediaTable;
        []].
Proof. split; vm_compute; reflexivity. Qed.

(** A tokenizer that throws on one row, to exercise the [catch] clause: the
    two failing rows are both reported under the number of the next
    statement. *)
Example catch_clause_entries :
  let parseMethod line :=
    if eqs line (lit "bad") then Throw (lit "boom") else Normal (parseCopyLine line) in
  snd (generateInsertScriptWith parseMethod formatValueAdvancedM (lit "T")
         [mkCopy Samples.mediaTable (lit "id")
            (join [LF] [lit "1"; lit "bad"; lit "bad"; lit "2"; lit "bad"])] [])
  = [lit "Erro na linha 2 da tabela " ++ Samples.mediaTable ++ lit ": boom";
     lit "Erro na linha 2 da tabela " ++ Samples.mediaTable ++ lit ": boom";
     lit "Erro na linha 3 da tabela " ++ Samples.mediaTable ++ lit ": boom"].
Proof. vm_compute. reflexivity. Qed.

(** * Further properties of the code *)

(** ** The block extractor *)

Lemma terminator_not_header (raw : jsstring) :
  isTerminator raw = true -> copyMatch (stripCR raw) = None.
Proof.
  unfold isTerminator. intro H. apply eqs_spec in H. rewrite H. reflexivity.
Qed.

(** X1. Outside a block, a line opens one exactly when, its carriage return
    removed, it has the shape of a COPY header: [COPY ], a schema part and a
    quoted name without double quotes inside, a parenthesized list without a
    closing parenthesis inside, [FROM stdin] and an optional semicolon.  The
    block opened has the schema with the quoted name as table, the text
    between the parentheses as columns, and no rows; the blocks already
    extracted are kept. *)
Theorem X1_header_opens_block
    (blocks : list copySection) (flag : bool) (raw t c : jsstring) :
  HeaderShape (stripCR raw) t c
  <-> scanLine (mkScan blocks None flag) raw
      = mkScan blocks (Some (mkOpen t c [])) true.
Proof.
  rewrite <- copyMatch_shape. unfold scanLine. split.
  - intro H. now rewrite H.
  - destruct (copyMatch (stripCR raw)) as [[t' c']|]; simpl.
    + intro H. now injection H as -> ->.
    + discriminate.
Qed.

Lemma scanLine_closed (st : scanState) (raw : jsstring) :
  currentCopy st = None -> isHeader raw = false -> scanLine st raw = st.
Proof.
  unfold isHeader, scanLine. intros Hc Hh.
  destruct (copyMatch (stripCR raw)) as [[t c]|]; [discriminate|].
  now rewrite Hc.
Qed.

Lemma scanLines_closed (lines : list jsstring) :
  forall st,
    currentCopy st = None ->
    forallb (fun raw => negb (isHeader raw)) lines = true ->
    scanLines st lines = st.
Proof.
  induction lines as [|raw lines IH]; intros st Hc H; [reflexivity|].
  simpl in H. apply andb_true_iff in H as [H1 H2]. apply negb_true_iff in H1.
  change (scanLines (scanLine st raw) lines = st).
  rewrite (scanLine_closed _ _ Hc H1). now apply IH.
Qed.

Lemma scanLine_row (blocks : list copySection) (t c : jsstring)
    (rows : list jsstring) (raw : jsstring) :
  isHeader raw = false -> isTerminator raw = false ->
  scanLine (mkScan blocks (Some (mkOpen t c rows)) true) raw
  = mkScan blocks (Some (mkOpen t c (rows ++ [stripCR raw]))) true.
Proof.
  unfold isHeader, isTerminator, scanLine. intros Hh Ht.
  destruct (copyMatch (stripCR raw)) as [[t' c']|]; [discriminate|].
  simpl. now rewrite Ht.
Qed.

Lemma scanLines_rows (raws : list jsstring) :
  forall blocks t c rows,
    forallb (fun raw => negb (isHeader raw) && negb (isTerminator raw)) raws = true ->
    scanLines (mkScan blocks (Some (mkOpen t c rows)) true) raws
    = mkScan blocks (Some (mkOpen t c (rows ++ map stripCR raws))) true.
Proof.
  induction raws as [|raw raws IH]; intros blocks t c rows H.
  - simpl. now rewrite app_nil_r.
  - simpl in H. apply andb_true_iff in H as [H1 H2].
    apply andb_true_iff in H1 as [Hh Ht]. apply negb_true_iff in Hh, Ht.
    change (scanLines (scanLine (mkScan blocks (Some (mkOpen t c rows)) true) raw) raws
            = mkScan blocks (Some (mkOpen t c (rows ++ map stripCR (raw :: raws)))) true).
    rewrite (scanLine_row _ _ _ _ _ Hh Ht), (IH _ _ _ _ H2).
    simpl. now rewrite <- app_assoc.
Qed.

Lemma scanLine_terminator (blocks : list copySection) (t c : jsstring)
    (rows : list jsstring) (raw : jsstring) :
  isTerminator raw = true ->
  scanLine (mkScan blocks (Some (mkOpen t c rows)) true) raw
  = mkScan (blocks ++ [mkCopy t c (join [LF] rows)]) None false.
Proof.
  intro Ht. unfold scanLine. rewrite (terminator_not_header _ Ht).
  unfold isTerminator in Ht. simpl. now rewrite Ht.
Qed.

Lemma stripCR_free (raw : jsstring) : ~ In LF raw -> ~ In LF (stripCR raw).
Proof. intros H Hin. now apply stripCR_incl in Hin. Qed.

(** X2. A block that is well formed is extracted as it stands: after a header,
    rows that are neither headers nor terminators, and a terminator, the block
    sequence has one more block, with the table and the columns of the header
    and the rows in order, their carriage returns removed, joined by newlines;
    no block is open any more.  This holds in every state, and the rows the
    encoder reads back from the block are these rows. *)
Theorem X2_well_formed_block_extracted
    (st : scanState) (header t c : jsstring) (rows : list jsstring)
    (terminator : jsstring) :
  copyMatch (stripCR header) = Some (t, c) ->
  forallb (fun raw => negb (isHeader raw) && negb (isTerminator raw)) rows = true ->
  isTerminator terminator = true ->
  Forall (fun raw => ~ In LF raw) rows ->
  scanLines st (header :: rows ++ [terminator])
  = mkScan (copies st ++ [mkCopy t c (join [LF] (map stripCR rows))]) None false
  /\ rowsOf (mkCopy t c (join [LF] (map stripCR rows)))
     = match rows with
       | [] => [[]]
       | _ :: _ => map stripCR rows
       end.
Proof.
  intros Hh Hrows Ht Hfree. split.
  - change (scanLines st (header :: rows ++ [terminator]))
      with (scanLines (scanLine st header) (rows ++ [terminator])).
    rewrite (scanLine_header _ _ _ _ Hh), scanLines_app.
    rewrite (scanLines_rows _ _ _ _ _ Hrows).
    change (scanLines ?s [terminator]) with (scanLine s terminator).
    now rewrite (scanLine_terminator _ _ _ _ _ Ht).
  - unfold rowsOf. cbn [data]. destruct rows as [|r rows]; [reflexivity|].
    apply split_join; [discriminate|].
    apply Forall_forall. intros x Hx. apply in_map_iff in Hx as (raw & <- & Hraw).
    apply stripCR_free. revert raw Hraw. now apply Forall_forall.
Qed.

Lemma X2_well_formed_block_witness :
  scanLines (mkScan [] None false)
    (Samples.mediaHeader :: [lit "1" ++ [TAB] ++ lit "a" ++ [CR]; lit "2" ++ [TAB] ++ lit "b"]
     ++ [lit "\."])
  = mkScan
      ([] ++ [mkCopy Samples.mediaTable (lit "id, name")
                (join [LF] (map stripCR [lit "1" ++ [TAB] ++ lit "a" ++ [CR];
                                          lit "2" ++ [TAB] ++ lit "b"]))])
      None false
  /\ rowsOf (mkCopy Samples.mediaTable (lit "id, name")
               (join [LF] (map stripCR [lit "1" ++ [TAB] ++ lit "a" ++ [CR];
                                         lit "2" ++ [TAB] ++ lit "b"])))
     = map stripCR [lit "1" ++ [TAB] ++ lit "a" ++ [CR]; lit "2" ++ [TAB] ++ lit "b"].
Proof.
  apply (X2_well_formed_block_extracted (mkScan [] None false)
           Samples.mediaHeader Samples.mediaTable (lit "id, name")
           [lit "1" ++ [TAB] ++ lit "a" ++ [CR]; lit "2" ++ [TAB] ++ lit "b"]
           (lit "\.")).
  - vm_compute. reflexivity.
  - vm_compute. reflexivity.
  - vm_compute. reflexivity.
  - repeat constructor; vm_compute; intuition discriminate.
Defined.

(** X3. A dump without a header line gives no block, and its script is the
    fixed frame: the five heading lines, the block that disables the triggers,
    the comment of the inserts, the block that enables the triggers and the
    comment of the sequences; no line of it is an [INSERT] statement and no
    error is recorded. *)
Theorem X3_no_header_no_insert (now content : jsstring) :
  forallb (fun raw => negb (isHeader raw)) (split LF content) = true ->
  processDump content = []
  /\ run now content
     = (join [LF]
          (headerLines now
           ++ addTriggerManagement [] false
           ++ [lit "-- Inserir dados"]
           ++ addTriggerManagement [] true
           ++ [lit "-- Ajustar sequences das chaves primárias"]),
        [])
  /\ forallb (fun l => negb (startsWith l (lit "INSERT")))
       (headerLines now
        ++ addTriggerManagement [] false
        ++ [lit "-- Inserir dados"]
        ++ addTriggerManagement [] true
        ++ [lit "-- Ajustar sequences das chaves primárias"])
     = true.
Proof.
  intro H.
  assert (Hnone : processDump content = []).
  { unfold processDump, processDumpFrom. now rewrite scanLines_closed. }
  split; [exact Hnone|]. split; [|reflexivity].
  unfold run. rewrite Hnone. reflexivity.
Qed.

Lemma X3_no_header_witness :
  processDump (lit "CREATE TABLE t (id integer);") = []
  /\ run (lit "2025-01-27T10:30:00.000Z") (lit "CREATE TABLE t (id integer);")
     = (join [LF]
          (headerLines (lit "2025-01-27T10:30:00.000Z")
           ++ addTriggerManagement [] false
           ++ [lit "-- Inserir dados"]
           ++ addTriggerManagement [] true
           ++ [lit "-- Ajustar sequences das chaves primárias"]),
        [])
  /\ forallb (fun l => negb (startsWith l (lit "INSERT")))
       (headerLines (lit "2025-01-27T10:30:00.000Z")
        ++ addTriggerManagement [] false
        ++ [lit "-- Inserir dados"]
        ++ addTriggerManagement [] true
        ++ [lit "-- Ajustar sequences das chaves primárias"])
     = true.
Proof.
  apply (X3_no_header_no_insert (lit "2025-01-27T10:30:00.000Z")
           (lit "CREATE TABLE t (id integer);")).
  vm_compute. reflexivity.
Defined.

(** ** Line ends *)

Lemma stripCR_snoc (l : jsstring) : stripCR (l ++ [CR]) = l.
Proof.
  unfold stripCR. rewrite rev_app_distr. simpl. apply rev_involutive.
Qed.

Lemma scanLine_stripCR (st : scanState) (a b : jsstring) :
  stripCR a = stripCR b -> scanLine st a = scanLine st b.
Proof. intro H. unfold scanLine. now rewrite H. Qed.

Lemma scanLines_withCR (lines : list jsstring) :
  forall st,
    Forall (fun l => stripCR l = l) lines ->
    scanLines st (withCR lines) = scanLines st lines.
Proof.
  induction lines as [|l lines IH]; intros st H; [reflexivity|].
  inversion H as [|? ? Hl Hlines]; subst.
  destruct lines as [|l' lines]; [reflexivity|].
  change (scanLines (scanLine st (l ++ [CR])) (withCR (l' :: lines))
          = scanLines (scanLine st l) (l' :: lines)).
  rewrite (scanLine_stripCR st (l ++ [CR]) l) by (now rewrite stripCR_snoc, Hl).
  now apply IH.
Qed.

Lemma split_join_crlf (lines : list jsstring) :
  lines <> [] ->
  Forall (fun l => ~ In LF l) lines ->
  split LF (join [CR; LF] lines) = withCR lines.
Proof.
  induction lines as [|x lines IH]; intros Hne Hfree; [easy|].
  inversion Hfree as [|? ? Hx Hlines]; subst.
  destruct lines as [|y lines].
  - simpl. now apply split_none.
  - change (join [CR; LF] (x :: y :: lines))
      with (x ++ [CR; LF] ++ join [CR; LF] (y :: lines)).
    replace (x ++ [CR; LF] ++ join [CR; LF] (y :: lines))
      with ((x ++ [CR]) ++ LF :: join [CR; LF] (y :: lines))
      by (now rewrite <- app_assoc).
    rewrite split_app_sep, IH by easy.
    rewrite split_none; [reflexivity|].
    intro Hin. apply in_app_or in Hin as [Hin|[Hin|[]]]; [tauto | discriminate].
Qed.

(** X4. Windows and Unix line ends give the same blocks: for lines that hold
    no newline and do not end in a carriage return themselves, the dump in
    which they are joined by carriage return and newline is extracted as the
    dump in which they are joined by newline alone. *)
Theorem X4_crlf_same_blocks (lines : list jsstring) :
  Forall (fun l => ~ In LF l) lines ->
  Forall (fun l => stripCR l = l) lines ->
  processDump (join [CR; LF] lines) = processDump (join [LF] lines).
Proof.
  intros Hfree Hcr. destruct lines as [|l lines]; [reflexivity|].
  unfold processDump, processDumpFrom.
  rewrite split_join_crlf, split_join by easy.
  now rewrite scanLines_withCR.
Qed.

Lemma X4_crlf_witness :
  processDump (join [CR; LF]
                 [Samples.mediaHeader; lit "1" ++ [TAB] ++ lit "x"; lit "\."; []])
  = processDump (join [LF]
                   [Samples.mediaHeader; lit "1" ++ [TAB] ++ lit "x"; lit "\."; []]).
Proof.
  apply (X4_crlf_same_blocks
           [Samples.mediaHeader; lit "1" ++ [TAB] ++ lit "x"; lit "\."; []]).
  - repeat constructor; vm_compute; intuition discriminate.
  - repeat constructor.
Defined.

(** ** Where blocks come from *)

Lemma scanLine_fromHeaders (lines : list jsstring) (st : scanState) (raw : jsstring) :
  In raw lines -> FromHeaders lines st -> FromHeaders lines (scanLine st raw).
Proof.
  intros Hraw [Hcur Hcopies]. unfold scanLine.
  destruct (copyMatch (stripCR raw)) as [[t c]|] eqn:Hm.
  { split; [|exact Hcopies]. simpl. intros cur H. injection H as <-.
    now exists raw. }
  destruct (currentCopy st) as [cur|] eqn:Hc; [|now split; [rewrite Hc|]].
  destruct (eqs (stripCR raw) (lit "\.") && inCopyData st).
  { split; [simpl; discriminate|]. simpl. apply Forall_app. split; [exact Hcopies|].
    constructor; [|constructor]. simpl. now apply Hcur. }
  destruct (inCopyData st); [|now split; [rewrite Hc|]].
  split; [|exact Hcopies]. simpl. intros cur' H. injection H as <-. simpl.
  now apply Hcur.
Qed.

Lemma scanLines_fromHeaders (lines scanned : list jsstring) :
  forall st,
    incl scanned lines -> FromHeaders lines st ->
    FromHeaders lines (scanLines st scanned).
Proof.
  induction scanned as [|raw scanned IH]; intros st Hincl Hst; [exact Hst|].
  change (FromHeaders lines (scanLines (scanLine st raw) scanned)).
  apply IH.
  - intros x Hx. apply Hincl. now right.
  - apply scanLine_fromHeaders; [|exact Hst]. apply Hincl. now left.
Qed.

(** X5. Every block extracted has the table and the columns of a header line
    of the dump, so the shape of a header holds of them: the table is a
    schema part with a double-quoted name, and the column text is not empty
    and holds no closing parenthesis. *)
Theorem X5_blocks_come_from_headers (content : jsstring) (b : copySection) :
  In b (processDump content) ->
  exists header,
    In header (split LF content)
    /\ HeaderShape (stripCR header) (table b) (columns b)
    /\ columns b <> []
    /\ ~ In RPAREN (columns b)
    /\ endsWith (table b) [DQUOTE] = true.
Proof.
  intro Hb.
  assert (H : FromHeaders (split LF content)
                (scanLines (mkScan [] None false) (split LF content))).
  { apply scanLines_fromHeaders; [apply incl_refl|].
    split; [discriminate | constructor]. }
  destruct H as [_ H]. rewrite Forall_forall in H.
  destruct (H b Hb) as (header & Hin & Hm).
  exists header. apply copyMatch_shape in Hm. split; [exact Hin|].
  split; [exact Hm|].
  destruct Hm as (schema & name & semi & _ & Ht & _ & _ & _ & _ & Hc & Hp & _).
  split; [exact Hc|]. split; [exact Hp|].
  apply endsWith_spec. exists (schema ++ [DQUOTE] ++ name).
  rewrite Ht. now rewrite <- !app_assoc.
Qed.

Lemma X5_blocks_come_from_headers_witness :
  exists header,
    In header (split LF Samples.openEndedDump)
    /\ HeaderShape (stripCR header)
         (lit "public." ++ [DQUOTE] ++ lit "users" ++ [DQUOTE]) (lit "id, email")
    /\ lit "id, email" <> []
    /\ ~ In RPAREN (lit "id, email")
    /\ endsWith (lit "public." ++ [DQUOTE] ++ lit "users" ++ [DQUOTE]) [DQUOTE] = true.
Proof.
  apply (X5_blocks_come_from_headers Samples.openEndedDump
           (mkCopy (lit "public." ++ [DQUOTE] ++ lit "users" ++ [DQUOTE])
              (lit "id, email") (lit "7" ++ [TAB] ++ lit "a@b.c"))).
  vm_compute. left. reflexivity.
Defined.

(** ** The tokenizer: rows without escapes, and rows as COPY writes them *)

Lemma unescape_plain_text (field : jsstring) :
  ~ In BACKSLASH field -> unescape field = field.
Proof.
  induction field as [|c rest IH]; intro H; [reflexivity|].
  rewrite unescape_plain by (intro E; apply H; now left).
  rewrite IH; [reflexivity|]. intro Hin. apply H. now right.
Qed.

Lemma split_incl (c x : char) (s : jsstring) :
  forall piece, In piece (split c s) -> In x piece -> In x s.
Proof.
  induction s as [|y s IH]; simpl; intros piece Hp Hx.
  - destruct Hp as [<-|[]]. exact Hx.
  - destruct (y =? c).
    + destruct Hp as [<-|Hp]; [easy|]. right. now apply (IH piece).
    + destruct (split c s) as [|f fs].
      * destruct Hp as [<-|[]]. destruct Hx as [->|[]]. now left.
      * destruct Hp as [<-|Hp].
        -- destruct Hx as [->|Hx]; [now left|]. right. apply (IH f); [now left|exact Hx].
        -- right. apply (IH piece); [now right | exact Hx].
Qed.

(** X6. A row without a backslash is cut at its tabs and nothing else happens
    to it: the fields are the pieces between the tabs, the last one left out
    when it is empty. *)
Theorem X6_row_without_backslash (line : jsstring) :
  ~ In BACKSLASH line ->
  parseCopyLine line = dropEmptyLast (split TAB line).
Proof.
  intro H. rewrite parseCopyLine_tokenize. unfold tokenize, fieldsOf. f_equal.
  rewrite <- (map_id (split TAB line)) at 2. apply map_ext_in.
  intros piece Hp. apply unescape_plain_text.
  intro Hin. apply H. exact (split_incl TAB BACKSLASH line piece Hp Hin).
Qed.

Lemma X6_row_without_backslash_witness :
  parseCopyLine (lit "7" ++ [TAB] ++ lit "a@b.c" ++ [TAB])
  = dropEmptyLast (split TAB (lit "7" ++ [TAB] ++ lit "a@b.c" ++ [TAB])).
Proof.
  apply (X6_row_without_backslash (lit "7" ++ [TAB] ++ lit "a@b.c" ++ [TAB])).
  vm_compute. intuition discriminate.
Defined.

Lemma unescape_copyEscape (field : jsstring) : unescape (copyEscape field) = field.
Proof.
  induction field as [|c rest IH]; [reflexivity|]. cbn [copyEscape].
  destruct (N.eqb_spec c BACKSLASH) as [->|Hb].
  { change (unescape (BACKSLASH :: BACKSLASH :: copyEscape rest))
      with (BACKSLASH :: unescape (copyEscape rest)). now rewrite IH. }
  destruct (N.eqb_spec c TAB) as [->|Ht].
  { change (unescape (BACKSLASH :: 116 :: copyEscape rest))
      with (TAB :: unescape (copyEscape rest)). now rewrite IH. }
  destruct (N.eqb_spec c LF) as [->|Hn].
  { change (unescape (BACKSLASH :: 110 :: copyEscape rest))
      with (LF :: unescape (copyEscape rest)). now rewrite IH. }
  rewrite (unescape_plain _ _ Hb). now rewrite IH.
Qed.

Lemma copyEscape_no_tab (field : jsstring) : ~ In TAB (copyEscape field).
Proof.
  induction field as [|c rest IH]; [easy|]. cbn [copyEscape].
  destruct (N.eqb_spec c BACKSLASH) as [->|Hb].
  { intros [H|[H|H]]; [discriminate | discriminate | now apply IH]. }
  destruct (N.eqb_spec c TAB) as [->|Ht].
  { intros [H|[H|H]]; [discriminate | discriminate | now apply IH]. }
  destruct (N.eqb_spec c LF) as [->|Hn].
  { intros [H|[H|H]]; [discriminate | discriminate | now apply IH]. }
  intros [H|H]; [congruence | now apply IH].
Qed.

Lemma copyEscape_no_newline (field : jsstring) : ~ In LF (copyEscape field).
Proof.
  induction field as [|c rest IH]; [easy|]. cbn [copyEscape].
  destruct (N.eqb_spec c BACKSLASH) as [->|Hb].
  { intros [H|[H|H]]; [discriminate | discriminate | now apply IH]. }
  destruct (N.eqb_spec c TAB) as [->|Ht].
  { intros [H|[H|H]]; [discriminate | discriminate | now apply IH]. }
  destruct (N.eqb_spec c LF) as [->|Hn].
  { intros [H|[H|H]]; [discriminate | discriminate | now apply IH]. }
  intros [H|H]; [congruence | now apply IH].
Qed.

(** X7. The tokenizer reads back what the COPY text form writes: when the
    fields of a row have their backslashes, tabs and newlines written as
    [\\], [\t] and [\n] and are joined by tabs, the tokenizer returns these
    fields, whatever characters they hold, except that an empty last field is
    left out.  The row written holds no newline, so it is one line of the
    dump. *)
Theorem X7_tokenizer_inverts_copy_escapes (fields : list jsstring) :
  fields <> [] ->
  parseCopyLine (join [TAB] (map copyEscape fields)) = dropEmptyLast fields
  /\ ~ In LF (join [TAB] (map copyEscape fields)).
Proof.
  intro Hne. split.
  - rewrite parseCopyLine_tokenize. unfold tokenize, fieldsOf.
    rewrite split_join.
    + rewrite map_map. f_equal. rewrite <- (map_id fields) at 2.
      apply map_ext. apply unescape_copyEscape.
    + now destruct fields.
    + apply Forall_forall. intros x Hx. apply in_map_iff in Hx as (f & <- & _).
      apply copyEscape_no_tab.
  - clear Hne. induction fields as [|f fields IH]; [easy|].
    destruct fields as [|g fields]; [apply copyEscape_no_newline|].
    change (join [TAB] (map copyEscape (f :: g :: fields)))
      with (copyEscape f ++ [TAB] ++ join [TAB] (map copyEscape (g :: fields))).
    intro Hin. apply in_app_or in Hin as [Hin|Hin].
    + now apply copyEscape_no_newline in Hin.
    + apply in_app_or in Hin as [[Hin|[]]|Hin]; [discriminate | now apply IH].
Qed.

Lemma X7_tokenizer_inverts_witness :
  parseCopyLine (join [TAB] (map copyEscape [lit "a\b"; [TAB; LF]; []; lit "\N"]))
  = dropEmptyLast [lit "a\b"; [TAB; LF]; []; lit "\N"]
  /\ ~ In LF (join [TAB] (map copyEscape [lit "a\b"; [TAB; LF]; []; lit "\N"])).
Proof.
  apply (X7_tokenizer_inverts_copy_escapes [lit "a\b"; [TAB; LF]; []; lit "\N"]).
  discriminate.
Defined.

(** ** The classifier: what its literals hold *)

Lemma undouble_doubleQuotes (v : jsstring) : undouble (doubleQuotes v) = Some v.
Proof.
  induction v as [|c v IH]; [reflexivity|]. cbn [doubleQuotes].
  destruct (c =? QUOTE) eqn:Hc.
  - apply N.eqb_eq in Hc. subst c.
    change (undouble (QUOTE :: QUOTE :: doubleQuotes v))
      with (option_map (cons QUOTE) (undouble (doubleQuotes v))).
    now rewrite IH.
  - cbn [undouble]. rewrite Hc, IH. reflexivity.
Qed.

Lemma sqlLiteralValue_inQuotes (body : jsstring) :
  sqlLiteralValue (inQuotes body) = undouble body.
Proof.
  unfold inQuotes, sqlLiteralValue. cbn [app]. rewrite N.eqb_refl.
  rewrite rev_app_distr. cbn [rev app]. rewrite N.eqb_refl.
  now rewrite rev_involutive.
Qed.

Lemma stripNulls_doubleQuotes (v : jsstring) :
  stripNulls (doubleQuotes v) = doubleQuotes (stripNulls v).
Proof.
  unfold stripNulls. induction v as [|c v IH]; [reflexivity|].
  cbn [doubleQuotes filter].
  destruct (N.eqb_spec c QUOTE) as [->|Hq].
  - cbn [filter]. change (negb (QUOTE =? NUL)) with true. cbv iota.
    cbn [doubleQuotes]. rewrite N.eqb_refl. now rewrite IH.
  - cbn [filter]. destruct (c =? NUL) eqn:Hn; cbn [negb]; [exact IH|].
    cbn [doubleQuotes]. apply N.eqb_neq in Hq. now rewrite Hq, IH.
Qed.

Lemma stripNulls_id (v : jsstring) : ~ In NUL v -> stripNulls v = v.
Proof.
  unfold stripNulls. induction v as [|c v IH]; intro H; [reflexivity|].
  cbn [filter]. destruct (N.eqb_spec c NUL) as [->|Hc].
  - exfalso. apply H. now left.
  - cbn [negb]. rewrite IH; [reflexivity|]. intro Hin. apply H. now right.
Qed.

Lemma stripNulls_free (v : jsstring) : ~ In NUL (stripNulls v).
Proof.
  unfold stripNulls. intro H. apply filter_In in H as [_ H].
  now rewrite N.eqb_refl in H.
Qed.

Lemma doubleQuotes_keeps (x : char) (v : jsstring) :
  In x v -> In x (doubleQuotes v).
Proof.
  induction v as [|c v IH]; [easy|]. cbn [doubleQuotes].
  intros [->|H].
  - destruct (x =? QUOTE) eqn:E; [apply N.eqb_eq in E; subst|]; now left.
  - destruct (c =? QUOTE); [right; right|right]; now apply IH.
Qed.

Lemma doubleQuotes_adds_nothing (x : char) (v : jsstring) :
  In x (doubleQuotes v) -> In x v.
Proof.
  induction v as [|c v IH]; [easy|]. cbn [doubleQuotes].
  destruct (N.eqb_spec c QUOTE) as [->|Hc].
  - intros [H|[H|H]]; [now left | now left | right; now apply IH].
  - intros [H|H]; [now left | right; now apply IH].
Qed.

Lemma numeric_chars (v : jsstring) (x : char) :
  NumericShape v -> In x v -> x = 45 \/ x = 46 \/ IsDigit x.
Proof.
  intros (sign & int & frac & -> & Hs & [_ Hi] & Hf) Hin.
  apply in_app_or in Hin as [Hin|Hin].
  { destruct Hs as [->| ->]; [easy|]. destruct Hin as [<-|[]]. now left. }
  apply in_app_or in Hin as [Hin|Hin].
  { right. right. revert x Hin. now apply Forall_forall. }
  destruct Hf as [->|(ds & -> & _ & Hd)]; [easy|].
  destruct Hin as [<-|Hin]; [right; now left|].
  right. right. revert x Hin. now apply Forall_forall.
Qed.

Lemma numeric_no_nul (v : jsstring) : NumericShape v -> ~ In NUL v.
Proof.
  intros H Hin. destruct (numeric_chars v NUL H Hin) as [E|[E|E]];
    try discriminate. unfold IsDigit, NUL in E. lia.
Qed.

Lemma formatValueAdvanced_cases (v : jsstring) :
  (IsNull v /\ formatValueAdvanced v = lit "NULL")
  \/ (~ IsNull v /\ NumericShape v /\ formatValueAdvanced v = v)
  \/ (~ IsNull v /\ ~ NumericShape v /\ IsBoolean v
      /\ formatValueAdvanced v = inQuotes v)
  \/ (~ IsNull v /\ ~ NumericShape v /\ ~ IsBoolean v
      /\ (Bracketed v \/ TimestampLike v)
      /\ formatValueAdvanced v = inQuotes (doubleQuotes v))
  \/ (~ IsNull v /\ ~ NumericShape v /\ ~ IsBoolean v
      /\ ~ Bracketed v /\ ~ TimestampLike v
      /\ formatValueAdvanced v = inQuotes (stripNulls (doubleQuotes v))).
Proof.
  pose proof (formatValueAdvanced_classify v) as H.
  remember (formatValueAdvanced v) as out eqn:E. clear E.
  destruct H as [H1|H1 H2|H1 H2 H3|H1 H2 H3 H4|H1 H2 H3 H4 H5|H1 H2 H3 H4 H5].
  - left. now split.
  - right. left. now repeat split.
  - right. right. left. now repeat split.
  - right. right. right. left. repeat split; try assumption. now left.
  - right. right. right. left. repeat split; try assumption. now right.
  - right. right. right. right. now repeat split.
Qed.

(** X8. What is not classified as NULL or as a number becomes a well-formed
    string literal: between its two quotes every quote is doubled, and read
    back it gives the field itself when the field is bracket-delimited or
    looks like a time stamp, and the field without its null characters
    otherwise. *)
Theorem X8_literal_reads_back (v : jsstring) :
  ~ IsNull v -> ~ NumericShape v ->
  sqlLiteralValue (formatValueAdvanced v) = Some v
  \/ (~ Bracketed v /\ ~ TimestampLike v
      /\ sqlLiteralValue (formatValueAdvanced v) = Some (stripNulls v)).
Proof.
  intros Hnull Hnum.
  destruct (formatValueAdvanced_cases v)
    as [[H _]|[(_ & H & _)|[(_ & _ & Hb & ->)|[(_ & _ & _ & _ & ->)
        |(_ & _ & _ & H4 & H5 & ->)]]]]; try contradiction.
  - left. rewrite sqlLiteralValue_inQuotes.
    destruct Hb as [->| ->]; reflexivity.
  - left. rewrite sqlLiteralValue_inQuotes. apply undouble_doubleQuotes.
  - right. split; [exact H4|]. split; [exact H5|].
    rewrite sqlLiteralValue_inQuotes, stripNulls_doubleQuotes.
    apply undouble_doubleQuotes.
Qed.

Lemma X8_literal_reads_back_witness :
  sqlLiteralValue (formatValueAdvanced (lit "O'Brien" ++ [NUL]))
  = Some (lit "O'Brien" ++ [NUL])
  \/ (~ Bracketed (lit "O'Brien" ++ [NUL]) /\ ~ TimestampLike (lit "O'Brien" ++ [NUL])
      /\ sqlLiteralValue (formatValueAdvanced (lit "O'Brien" ++ [NUL]))
         = Some (stripNulls (lit "O'Brien" ++ [NUL]))).
Proof.
  apply (X8_literal_reads_back (lit "O'Brien" ++ [NUL])).
  - intros [H|H]; vm_compute in H; discriminate.
  - intro H. apply numericTest_spec in H. vm_compute in H. discriminate.
Defined.

(** X9. Null characters are taken out of plain strings only: the literal of a
    field that is neither bracket-delimited nor like a time stamp holds no null
    character, while a null character of a bracket-delimited or
    time-stamp-like field stays in its literal. *)
Theorem X9_null_characters (v : jsstring) :
  (~ Bracketed v -> ~ TimestampLike v -> ~ In NUL (formatValueAdvanced v))
  /\ (Bracketed v \/ TimestampLike v -> In NUL v -> In NUL (formatValueAdvanced v)).
Proof.
  destruct (formatValueAdvanced_cases v)
    as [[H ->]|[(_ & H & ->)|[(_ & _ & Hb & ->)|[(_ & _ & _ & Hbt & ->)
        |(_ & _ & _ & H4 & H5 & ->)]]]]; split.
  - intros _ _ Hin. vm_compute in Hin. intuition discriminate.
  - intros _ Hin. destruct H as [->| ->]; vm_compute in Hin; intuition discriminate.
  - intros _ _. now apply numeric_no_nul.
  - intros _ Hin. now apply numeric_no_nul in Hin.
  - intros _ _ Hin. destruct Hb as [->| ->]; vm_compute in Hin; intuition discriminate.
  - intros _ Hin. destruct Hb as [->| ->]; vm_compute in Hin; intuition discriminate.
  - intros Hb Ht. destruct Hbt; contradiction.
  - intros _ Hin. unfold inQuotes. apply in_or_app. right. apply in_or_app. left.
    now apply doubleQuotes_keeps.
  - intros _ _ Hin. unfold inQuotes in Hin.
    apply in_app_or in Hin as [[Hin|[]]|Hin]; [discriminate|].
    apply in_app_or in Hin as [Hin|[Hin|[]]]; [|discriminate].
    now apply stripNulls_free in Hin.
  - intros [Hb|Ht]; contradiction.
Qed.

(** X10. Only the NULL marker and the empty field become [NULL]: every other
    field, the four letters [NULL] included, gets another literal. *)
Theorem X10_null_only_from_marker (v : jsstring) :
  formatValueAdvanced v = lit "NULL" <-> IsNull v.
Proof.
  destruct (formatValueAdvanced_cases v)
    as [[H E]|[(Hn & H & E)|[(Hn & _ & _ & E)|[(Hn & _ & _ & _ & E)
        |(Hn & _ & _ & _ & _ & E)]]]]; rewrite E.
  - tauto.
  - split; [|contradiction]. intros ->.
    apply numericTest_spec in H. discriminate.
  - split; [discriminate | contradiction].
  - split; [discriminate | contradiction].
  - split; [discriminate | contradiction].
Qed.

(** ** The basic classifier *)

Lemma escapeQuotes_no_nul (v : jsstring) : ~ In NUL v -> ~ In NUL (escapeQuotes v).
Proof.
  rewrite escapeQuotes_doubleQuotes. intros H Hin.
  now apply doubleQuotes_adds_nothing in Hin.
Qed.

(** X11. The classifier of the basic extractor and the one of the advanced
    extractor give the same literal for every field without a null
    character; for a field with null characters they agree or the advanced
    literal is the basic one with the null characters removed. *)
Theorem X11_basic_and_advanced_classifier (v : jsstring) :
  formatValueAdvanced v = Basic.formatValue v
  \/ (In NUL v /\ formatValueAdvanced v = stripNulls (Basic.formatValue v)).
Proof.
  unfold formatValueAdvanced, Basic.formatValue.
  destruct (eqs v (lit "\N") || eqs v []); [now left|].
  destruct (numericTest v); [now left|].
  destruct (eqs v (lit "t") || eqs v (lit "f")); [now left|].
  match goal with |- context [if ?b then _ else _] => destruct b end; [now left|].
  destruct (datePrefixTest v && includes v (lit ":")); [now left|].
  rewrite replaceAll_delete. fold (stripNulls (escapeQuotes v)).
  destruct (in_dec N.eq_dec NUL v) as [Hin|Hout].
  - right. split; [exact Hin|]. unfold quoted, stripNulls.
    now rewrite !filter_app.
  - left. now rewrite (stripNulls_id _ (escapeQuotes_no_nul _ Hout)).
Qed.

Lemma X9_null_characters_witness :
  ~ In NUL (formatValueAdvanced (lit "a" ++ [NUL] ++ lit "b"))
  /\ In NUL (formatValueAdvanced (lit "{" ++ [NUL] ++ lit "}")).
Proof.
  split.
  - apply (proj1 (X9_null_characters (lit "a" ++ [NUL] ++ lit "b"))).
    + intro H. apply bracketed_spec in H. vm_compute in H. discriminate.
    + intro H. apply timestampLike_spec in H. vm_compute in H. discriminate.
  - apply (proj2 (X9_null_characters (lit "{" ++ [NUL] ++ lit "}"))).
    + left. apply bracketed_spec. vm_compute. reflexivity.
    + vm_compute. tauto.
Defined.

(** ** The layout of the script *)

Lemma insertsOf_real_map (tableName : jsstring) (columnList : list jsstring)
    (rows : list jsstring) :
  insertsOf parseCopyLineM formatValueAdvancedM tableName columnList rows
  = map (fun line => insertStatement tableName columnList
                       (map formatValueAdvanced (parseCopyLine line)))
      (filter (fun line => negb (isBlank line)) rows).
Proof.
  unfold insertsOf. induction rows as [|line rows IH]; [reflexivity|].
  cbn [flat_map filter]. rewrite tryRow_real, IH.
  now destruct (isBlank line).
Qed.

Lemma tableSection_real (b : copySection) :
  tableSection parseCopyLineM formatValueAdvancedM b = sectionOf b.
Proof.
  unfold tableSection, sectionOf, tableInserts, statementOf, insertedRows.
  rewrite insertsOf_real_map, length_map.
  now destruct (filter (fun line => negb (isBlank line)) (rowsOf b)).
Qed.

(** X12. The script of the advanced extractor, in order: the five heading
    lines, the block that disables the triggers, the comment of the inserts,
    one section for each block in the order of the dump, the block that
    enables the triggers, the sequence adjustments, and the warnings when the
    error list is not empty.  The section of a block is its comment, one
    statement for each row that is not blank, in the order of the rows, a
    comment with the number of these statements when there is one at least,
    and an empty line.  The error list is returned as it was. *)
Theorem X12_script_layout
    (now : jsstring) (copies : list copySection) (errors : list jsstring) :
  scriptLines now copies errors
  = (headerLines now
     ++ addTriggerManagement [] false
     ++ [lit "-- Inserir dados"]
     ++ flat_map sectionOf copies
     ++ addTriggerManagement [] true
     ++ addSequenceAdjustment copies []
     ++ match errors with
        | [] => []
        | _ :: _ => warningLines errors
        end,
     errors).
Proof.
  rewrite scriptLines_real, addWarnings_lines. unfold scriptBody, headerLines.
  rewrite (flat_map_ext _ _ tableSection_real).
  f_equal. now rewrite <- !app_assoc.
Qed.

Lemma split_blank (data : jsstring) :
  isBlank data = true ->
  filter (fun line => negb (isBlank line)) (split LF data) = [].
Proof.
  intro H. unfold isBlank in H. rewrite forallb_forall in H.
  assert (Hall : forall piece, In piece (split LF data) -> isBlank piece = true).
  { intros piece Hp. unfold isBlank. apply forallb_forall. intros x Hx.
    apply H. exact (split_incl LF x data piece Hp Hx). }
  induction (split LF data) as [|piece pieces IH]; [reflexivity|].
  cbn [filter]. rewrite (Hall piece) by now left. cbn [negb].
  apply IH. intros p Hp. apply Hall. now right.
Qed.

Lemma parseCopyLine_tab_cons (post : jsstring) :
  parseCopyLine (TAB :: post) = [] :: parseCopyLine post.
Proof.
  rewrite !parseCopyLine_tokenize. unfold tokenize.
  rewrite fieldsOf_tab.
  exact (dropEmptyLast_app [[]] (fieldsOf post) (fieldsOf_nonempty post)).
Qed.

(** X13. A block whose data is white space only gets its comment and an empty
    line, no statement, no count and no error: such rows are skipped before
    they are tokenized.  This takes in the block without rows and the rows of
    tabs alone, although a row of [n] tabs has [n] empty fields. *)
Theorem X13_blank_rows_skipped
    (script errors : list jsstring) (b : copySection) :
  isBlank (data b) = true ->
  tableStep parseCopyLineM formatValueAdvancedM (script, errors) b
  = (script ++ [lit "-- Dados para " ++ table b; []], errors)
  /\ (forall n, isBlank (repeat TAB n) = true
                /\ parseCopyLine (repeat TAB n) = repeat [] n).
Proof.
  intro H. split.
  - rewrite tableStep_section, tableSection_real.
    unfold tableErrors. rewrite errorEntries_real, app_nil_r.
    unfold sectionOf, insertedRows, rowsOf. now rewrite (split_blank _ H).
  - intro n. split.
    + induction n as [|n IH]; [reflexivity | exact IH].
    + induction n as [|n IH]; [reflexivity|].
      cbn [repeat]. now rewrite parseCopyLine_tab_cons, IH.
Qed.

Lemma X13_blank_rows_witness :
  tableStep parseCopyLineM formatValueAdvancedM ([], [])
    (mkCopy Samples.mediaTable (lit "id, name") ([TAB] ++ [LF] ++ lit "  "))
  = ([] ++ [lit "-- Dados para " ++ Samples.mediaTable; []], [])
  /\ (forall n, isBlank (repeat TAB n) = true
                /\ parseCopyLine (repeat TAB n) = repeat [] n).
Proof.
  apply (X13_blank_rows_skipped [] []
           (mkCopy Samples.mediaTable (lit "id, name") ([TAB] ++ [LF] ++ lit "  "))).
  reflexivity.
Defined.

(** ** Sequence adjustment: quoted columns, and the earlier versions *)

Lemma replaceAll_delete_twice (c : char) (s : jsstring) :
  replaceAll c [] (replaceAll c [] s) = replaceAll c [] s.
Proof.
  rewrite !replaceAll_delete. induction s as [|x s IH]; [reflexivity|].
  cbn [filter]. destruct (negb (x =? c)) eqn:E; [|exact IH].
  cbn [filter]. now rewrite E, IH.
Qed.

(** X14. The double quotes of a column name are kept in the comment of its
    sequence block only: the SQL of the block is the one of the name without
    double quotes, which itself holds none. *)
Theorem X14_sequence_block_unquotes (tableName idCol : jsstring) :
  tl (sequenceBlock tableName idCol)
  = tl (sequenceBlock tableName (replaceAll DQUOTE [] idCol))
  /\ ~ In DQUOTE (replaceAll DQUOTE [] idCol)
  /\ hd [] (sequenceBlock tableName idCol)
     = lit "-- Ajustar sequence para " ++ tableName ++ lit "." ++ idCol.
Proof.
  split; [|split; [|reflexivity]].
  - unfold sequenceBlock. cbn [tl]. now rewrite replaceAll_delete_twice.
  - rewrite replaceAll_delete. intro H. apply filter_In in H as [_ H].
    now rewrite N.eqb_refl in H.
Qed.

Lemma fold_legacy_sequenceStep (copies : list copySection) :
  forall script,
    fold_left Legacy.sequenceStep copies script
    = script ++ flat_map (fun b => flat_map (Legacy.sequenceLines (table b))
                                     (idColumnsOf b)) copies.
Proof.
  induction copies as [|b copies IH]; intro script; simpl.
  - now rewrite app_nil_r.
  - rewrite IH. unfold Legacy.sequenceStep, idColumnsOf.
    rewrite (filter_ext _ _ isIdColumn_containsIdCI). now rewrite <- app_assoc.
Qed.

Lemma legacy_preamble (now : jsstring) :
  Legacy.preamble now
  = headerLines now ++ addTriggerManagement [] false ++ [lit "-- Inserir dados"].
Proof. vm_compute. reflexivity. Qed.

Lemma legacy_enableLines :
  Legacy.enableLines
  = (lit "-- Reabilitar triggers" :: tl (addTriggerManagement [] true))
    ++ [lit "-- Ajustar sequences das chaves primárias"].
Proof. vm_compute. reflexivity. Qed.

(** X15. The advanced extractor before and after its trigger and sequence
    code moved into methods: the two scripts start with the same lines, up to
    the last table section, and end with the same warnings; they return the
    same error list.  Between, the earlier version has a shorter comment on
    the block that enables the triggers, and for each column that holds [id]
    the three lines of a plain [setval], for the same columns in the same
    order as the blocks of the later version. *)
Theorem X15_earlier_advanced_script
    (now : jsstring) (copies : list copySection) (errors : list jsstring) :
  let common :=
    headerLines now ++ addTriggerManagement [] false ++ [lit "-- Inserir dados"]
    ++ flat_map sectionOf copies in
  let warnings :=
    match errors with [] => [] | _ :: _ => warningLines errors end in
  Legacy.scriptLines now copies errors
  = (common
     ++ (lit "-- Reabilitar triggers" :: tl (addTriggerManagement [] true))
     ++ [lit "-- Ajustar sequences das chaves primárias"]
     ++ flat_map (fun b => flat_map (Legacy.sequenceLines (table b)) (idColumnsOf b))
          copies
     ++ warnings,
     errors)
  /\ scriptLines now copies errors
     = (common
        ++ addTriggerManagement [] true
        ++ [lit "-- Ajustar sequences das chaves primárias"]
        ++ flat_map (fun b => flat_map (sequenceBlock (table b)) (idColumnsOf b))
             copies
        ++ warnings,
        errors).
Proof.
  cbv zeta. split.
  - unfold Legacy.scriptLines. rewrite fold_tableStep, tableErrors_real, app_nil_r.
    rewrite fold_legacy_sequenceStep, addWarnings_lines.
    rewrite (flat_map_ext _ _ tableSection_real).
    rewrite legacy_preamble, legacy_enableLines.
    f_equal. now rewrite <- !app_assoc.
  - rewrite scriptLines_real, addWarnings_lines. unfold scriptBody.
    rewrite (flat_map_ext _ _ tableSection_real).
    rewrite (addSequenceAdjustment_blocks copies []).
    change ([] ++ [lit "-- Ajustar sequences das chaves primárias"]
            ++ flat_map (fun b => flat_map (sequenceBlock (table b)) (idColumnsOf b))
                 copies)
      with ([lit "-- Ajustar sequences das chaves primárias"]
            ++ flat_map (fun b => flat_map (sequenceBlock (table b)) (idColumnsOf b))
                 copies).
    fold (headerLines now). f_equal. now rewrite <- !app_assoc.
Qed.

(** ** The basic extractor against the advanced one *)

Lemma whiteSpace_not_letter (c : char) :
  isWhiteSpace c = true ->
  (c =? 73) || (c =? 105) = false /\ (c =? 68) || (c =? 100) = false.
Proof.
  intro H.
  destruct (N.eqb_spec c 73) as [->|_]; [discriminate|].
  destruct (N.eqb_spec c 105) as [->|_]; [discriminate|].
  destruct (N.eqb_spec c 68) as [->|_]; [discriminate|].
  destruct (N.eqb_spec c 100) as [->|_]; [discriminate|].
  now split.
Qed.

Lemma containsIdCI_cons (a : char) (rest : jsstring) :
  containsIdCI (a :: rest)
  = (((a =? 73) || (a =? 105)) && startsD rest) || containsIdCI rest.
Proof. reflexivity. Qed.

Lemma containsIdCI_ws_cons (c : char) (s : jsstring) :
  isWhiteSpace c = true -> containsIdCI (c :: s) = containsIdCI s.
Proof.
  intro H. rewrite containsIdCI_cons.
  now rewrite (proj1 (whiteSpace_not_letter c H)).
Qed.

Lemma startsD_snoc (c : char) (s : jsstring) :
  (c =? 68) || (c =? 100) = false -> startsD (s ++ [c]) = startsD s.
Proof. intro H. destruct s as [|a s]; [exact H | reflexivity]. Qed.

Lemma containsIdCI_ws_snoc (c : char) (s : jsstring) :
  isWhiteSpace c = true -> containsIdCI (s ++ [c]) = containsIdCI s.
Proof.
  intro H. destruct (whiteSpace_not_letter c H) as [Hi Hd].
  induction s as [|a s IH].
  - cbn [app]. rewrite containsIdCI_cons, Hi. reflexivity.
  - cbn [app]. rewrite !containsIdCI_cons, IH, (startsD_snoc _ _ Hd). reflexivity.
Qed.

Lemma containsIdCI_dropWhile (s : jsstring) :
  containsIdCI (dropWhile isWhiteSpace s) = containsIdCI s.
Proof.
  induction s as [|c s IH]; [reflexivity|]. cbn [dropWhile].
  destruct (isWhiteSpace c) eqn:Hc; [|reflexivity].
  now rewrite IH, (containsIdCI_ws_cons _ _ Hc).
Qed.

Lemma containsIdCI_dropEnd (s : jsstring) :
  containsIdCI (rev (dropWhile isWhiteSpace (rev s))) = containsIdCI s.
Proof.
  induction s as [|c s IH] using rev_ind; [reflexivity|].
  rewrite rev_app_distr. cbn [rev app dropWhile].
  destruct (isWhiteSpace c) eqn:Hc.
  - now rewrite IH, (containsIdCI_ws_snoc _ _ Hc).
  - cbn [rev]. now rewrite rev_involutive.
Qed.

Lemma containsIdCI_trim (s : jsstring) : containsIdCI (trim s) = containsIdCI s.
Proof. unfold trim. now rewrite containsIdCI_dropEnd, containsIdCI_dropWhile. Qed.

Lemma startsD_first_piece (s : jsstring) :
  startsD (hd [] (split COMMA s)) = startsD s.
Proof.
  destruct s as [|b s]; [reflexivity|].
  destruct (N.eq_dec b COMMA) as [->|Hb].
  - now rewrite split_sep.
  - now rewrite (split_other _ _ _ Hb).
Qed.

Lemma existsb_split_id (s : jsstring) :
  existsb containsIdCI (split COMMA s) = containsIdCI s.
Proof.
  induction s as [|a s IH]; [reflexivity|].
  destruct (N.eq_dec a COMMA) as [->|Ha].
  - rewrite split_sep. cbn [existsb]. rewrite IH. reflexivity.
  - rewrite (split_other _ _ _ Ha). cbn [existsb].
    rewrite !containsIdCI_cons, startsD_first_piece, <- IH.
    pose proof (split_nonempty COMMA s) as Hne.
    destruct (split COMMA s) as [|f fs]; [easy|]. cbn [hd tl existsb].
    now rewrite orb_assoc.
Qed.

Lemma existsb_columns_id (columns : jsstring) :
  existsb isIdColumn (columnListOf columns) = containsIdCI columns.
Proof.
  unfold columnListOf. rewrite <- existsb_split_id.
  induction (split COMMA columns) as [|p ps IH]; [reflexivity|].
  cbn [map existsb]. now rewrite IH, isIdColumn_containsIdCI, containsIdCI_trim.
Qed.

Lemma filter_nil_existsb (f : jsstring -> bool) (l : list jsstring) :
  existsb f l = match filter f l with [] => false | _ :: _ => true end.
Proof.
  induction l as [|x l IH]; [reflexivity|]. cbn [existsb filter].
  destruct (f x); [reflexivity | exact IH].
Qed.

(** X16. The basic extractor adjusts the sequence of a table exactly when the
    advanced extractor adjusts one column of it at least: the test of the
    whole column text for [id] succeeds if and only if one of the trimmed
    column names passes the test of the advanced version.  The basic version
    then always names the column [id]. *)
Theorem X16_basic_sequence_test (script : list jsstring) (b : copySection) :
  Basic.sequenceStep script b
  = script
    ++ match filter isIdColumn (columnListOf (columns b)) with
       | [] => []
       | _ :: _ =>
           [lit "-- Ajustar sequence para " ++ table b;
            lit "SELECT setval(pg_get_serial_sequence('" ++ table b
            ++ lit "', 'id'), (SELECT MAX(id) FROM " ++ table b ++ lit "));";
            []]
       end.
Proof.
  unfold Basic.sequenceStep.
  rewrite includes_id_lower, <- existsb_columns_id, filter_nil_existsb.
  destruct (filter isIdColumn (columnListOf (columns b)));
    [now rewrite app_nil_r | reflexivity].
Qed.

Lemma unescape_no_nul (n : nat) :
  forall field,
    (List.length field <= n)%nat -> ~ In NUL field -> ~ In NUL (unescape field).
Proof.
  induction n as [|n IH]; intros field Hlen H.
  - destruct field; [easy | simpl in Hlen; lia].
  - destruct field as [|c rest]; [easy|]. simpl in Hlen. cbn [unescape].
    assert (Hrest : ~ In NUL rest) by (intro E; apply H; now right).
    assert (Hc : c <> NUL) by (intro E; apply H; now left).
    destruct (c =? BACKSLASH).
    + destruct rest as [|next rest']; [intros [E|[]]; discriminate|].
      simpl in Hlen.
      assert (Hrest' : ~ In NUL rest') by (intro E; apply Hrest; now right).
      assert (IH' : ~ In NUL (unescape rest')) by (apply IH; [lia | exact Hrest']).
      assert (IHr : ~ In NUL (unescape (next :: rest')))
        by (apply IH; [simpl; lia | exact Hrest]).
      repeat match goal with |- context [if ?b then _ else _] => destruct b end;
        simpl; intuition discriminate.
    + intros [E|E]; [congruence|]. revert E. apply IH; [lia | exact Hrest].
Qed.

Lemma dropEmptyLast_incl (f : jsstring) (fields : list jsstring) :
  In f (dropEmptyLast fields) -> In f fields.
Proof.
  unfold dropEmptyLast. destruct (last fields []); [|easy].
  induction fields as [|x fields IH]; [easy|]. simpl.
  destruct fields as [|y fields]; [easy|].
  intros [E|E]; [now left | right; now apply IH].
Qed.

Lemma parseCopyLine_no_nul (line f : jsstring) :
  ~ In NUL line -> In f (parseCopyLine line) -> ~ In NUL f.
Proof.
  intros H Hf. rewrite parseCopyLine_tokenize in Hf.
  apply dropEmptyLast_incl in Hf. unfold fieldsOf in Hf.
  apply in_map_iff in Hf as (piece & <- & Hp).
  apply (unescape_no_nul (List.length piece)); [lia|].
  intro Hin. apply H. exact (split_incl TAB NUL line piece Hp Hin).
Qed.

Lemma formatValue_agree (v : jsstring) :
  ~ In NUL v -> Basic.formatValue v = formatValueAdvanced v.
Proof.
  intro H. unfold formatValueAdvanced, Basic.formatValue.
  destruct (eqs v (lit "\N") || eqs v []); [reflexivity|].
  destruct (numericTest v); [reflexivity|].
  destruct (eqs v (lit "t") || eqs v (lit "f")); [reflexivity|].
  match goal with |- context [if ?b then _ else _] => destruct b end; [reflexivity|].
  destruct (datePrefixTest v && includes v (lit ":")); [reflexivity|].
  rewrite replaceAll_delete. fold (stripNulls (escapeQuotes v)).
  now rewrite (stripNulls_id _ (escapeQuotes_no_nul _ H)).
Qed.

Lemma fold_basic_rowStep (tableName : jsstring) (columnList : list jsstring)
    (rows : list jsstring) :
  forall script,
    fold_left (Basic.rowStep tableName columnList) rows script
    = script
      ++ map (fun line => insertStatement tableName columnList
                            (map Basic.formatValue (parseCopyLine line)))
           (filter (fun line => negb (isBlank line)) rows).
Proof.
  induction rows as [|line rows IH]; intro script.
  - simpl. now rewrite app_nil_r.
  - cbn [fold_left filter]. rewrite IH. unfold Basic.rowStep.
    rewrite falsy_trim. destruct (isBlank line); cbn [negb]; [reflexivity|].
    cbn [map]. now rewrite <- app_assoc.
Qed.

(** X17. On data without null characters the basic extractor emits the
    statements of the advanced one: the section of a table is its comment, the
    same [INSERT] statement for each row that is not blank, in order, and an
    empty line; it differs from the section of the advanced version by the
    missing count comment. *)
Theorem X17_basic_table_sections (copies : list copySection) (script : list jsstring) :
  Forall (fun b => ~ In NUL (data b)) copies ->
  fold_left Basic.tableStep copies script
  = script
    ++ flat_map (fun b => [lit "-- Dados para " ++ table b]
                          ++ map (statementOf b) (insertedRows b)
                          ++ [[]]) copies.
Proof.
  revert script. induction copies as [|b copies IH]; intros script H.
  - simpl. now rewrite app_nil_r.
  - inversion H as [|? ? Hb Hrest]; subst.
    cbn [fold_left flat_map]. rewrite (IH _ Hrest).
    unfold Basic.tableStep. rewrite fold_basic_rowStep.
    rewrite <- !app_assoc. f_equal. f_equal. cbn [app]. f_equal.
    unfold insertedRows, statementOf, rowsOf. apply map_ext_in.
    intros line Hline. apply filter_In in Hline as [Hline _]. f_equal.
    apply map_ext_in. intros v Hv. apply formatValue_agree.
    apply (parseCopyLine_no_nul line v); [|exact Hv].
    intro Hin. apply Hb. exact (split_incl LF NUL (data b) line Hline Hin).
Qed.

Lemma X17_basic_table_sections_witness :
  fold_left Basic.tableStep [Samples.wideBlock] []
  = [] ++ flat_map (fun b => [lit "-- Dados para " ++ table b]
                             ++ map (statementOf b) (insertedRows b)
                             ++ [[]]) [Samples.wideBlock].
Proof.
  apply (X17_basic_table_sections [Samples.wideBlock] []).
  repeat constructor. vm_compute. intuition discriminate.
Defined.

(** ** Rows are inserted or reported; blocks are only appended *)

Lemma rows_accounted (parseMethod : jsstring -> completion (list jsstring))
    (formatMethod : jsstring -> completion jsstring)
    (tableName : jsstring) (columnList : list jsstring) (rows : list jsstring) :
  forall n,
    (List.length (insertsOf parseMethod formatMethod tableName columnList rows)
     + List.length (errorEntries parseMethod formatMethod tableName columnList n rows)
     = List.length (filter (fun line => negb (isBlank line)) rows))%nat.
Proof.
  unfold insertsOf. induction rows as [|line rows IH]; intro n; [reflexivity|].
  cbn [flat_map errorEntries filter].
  destruct (isBlank line); cbn [negb]; [apply IH|].
  destruct (tryRow parseMethod formatMethod tableName columnList line).
  - cbn [app List.length]. now rewrite <- (IH (S n)).
  - cbn [app List.length]. rewrite <- (IH n). lia.
Qed.

(** X18. Whatever the tokenizer and the classifier do, each row of a block
    that is not blank is accounted for once: the statements pushed for the
    table and the entries added to the error list are together as many as
    the rows that are not blank, and the state after the table holds exactly
    these statements and entries. *)
Theorem X18_rows_inserted_or_reported
    (parseMethod : jsstring -> completion (list jsstring))
    (formatMethod : jsstring -> completion jsstring)
    (script errors : list jsstring) (b : copySection) :
  exists statements entries,
    tableStep parseMethod formatMethod (script, errors) b
    = (script ++ [lit "-- Dados para " ++ table b] ++ statements
       ++ match statements with
          | [] => []
          | _ :: _ => [lit "-- " ++ ofNat (List.length statements)
                         ++ lit " registros inseridos em " ++ table b]
          end
       ++ [[]],
       errors ++ entries)
    /\ (List.length statements + List.length entries
        = List.length (insertedRows b))%nat.
Proof.
  exists (tableInserts parseMethod formatMethod b),
         (tableErrors parseMethod formatMethod b).
  split.
  - rewrite tableStep_section. unfold tableSection.
    now destruct (tableInserts parseMethod formatMethod b).
  - apply rows_accounted.
Qed.

Lemma scanLine_appends (blocks : list copySection) (cur : option openCopy)
    (flag : bool) (raw : jsstring) :
  scanLine (mkScan blocks cur flag) raw
  = mkScan (blocks ++ copies (scanLine (mkScan [] cur flag) raw))
      (currentCopy (scanLine (mkScan [] cur flag) raw))
      (inCopyData (scanLine (mkScan [] cur flag) raw)).
Proof.
  unfold scanLine. destruct (copyMatch (stripCR raw)) as [[t c]|]; simpl.
  { now rewrite app_nil_r. }
  destruct cur as [cur|]; simpl; [|now rewrite app_nil_r].
  destruct (eqs (stripCR raw) (lit "\.") && flag); simpl; [reflexivity|].
  destruct flag; simpl; now rewrite app_nil_r.
Qed.

Lemma scanLines_appends (lines : list jsstring) :
  forall blocks cur flag,
    scanLines (mkScan blocks cur flag) lines
    = mkScan (blocks ++ copies (scanLines (mkScan [] cur flag) lines))
        (currentCopy (scanLines (mkScan [] cur flag) lines))
        (inCopyData (scanLines (mkScan [] cur flag) lines)).
Proof.
  induction lines as [|raw lines IH]; intros blocks cur flag.
  - simpl. now rewrite app_nil_r.
  - change (scanLines (mkScan blocks cur flag) (raw :: lines))
      with (scanLines (scanLine (mkScan blocks cur flag) raw) lines).
    change (scanLines (mkScan [] cur flag) (raw :: lines))
      with (scanLines (scanLine (mkScan [] cur flag) raw) lines).
    rewrite scanLine_appends, IH.
    destruct (scanLine (mkScan [] cur flag) raw) as [cs cur' flag'].
    cbn [copies currentCopy inCopyData].
    rewrite (IH cs cur' flag'). cbn [copies currentCopy inCopyData].
    now rewrite app_assoc.
Qed.

(** X19. The extractor only appends: the blocks it holds before a scan are the
    first blocks after it, unchanged, and what the scan adds, and the block it
    leaves open, do not depend on them.  So a second call of [processDump] on
    the same extractor puts the blocks of the dump after those it already
    has. *)
Theorem X19_blocks_only_appended
    (blocks : list copySection) (cur : option openCopy) (flag : bool)
    (lines : list jsstring) (content : jsstring) :
  scanLines (mkScan blocks cur flag) lines
  = mkScan (blocks ++ copies (scanLines (mkScan [] cur flag) lines))
      (currentCopy (scanLines (mkScan [] cur flag) lines))
      (inCopyData (scanLines (mkScan [] cur flag) lines))
  /\ processDumpFrom blocks content = blocks ++ processDump content
  /\ processDumpFrom (processDump content) content
     = processDump content ++ processDump content.
Proof.
  assert (H : forall cs, processDumpFrom cs content = cs ++ processDump content).
  { intro cs. unfold processDump, processDumpFrom.
    now rewrite scanLines_appends. }
  split; [apply scanLines_appends|]. split; apply H.
Qed.
